(** * go-lexer: the scanning cursor and the token driver of package [lexer]

    A shallow embedding of [lexer.go] (the revision with explicit
    invalid-rune signalling and the [container/list] token queue) together
    with the properties of its cursor and of its driver.

    Conventions of the embedding:
    - a Go [string] is a sequence of bytes: [String.string], one [ascii]
      per byte, [len] is the number of bytes;
    - Go's [int] offsets and [rune] values are integers of [Z]: an
      offset grows up to the length of the input and one call lowers it by
      four bytes at most, far from the bounds of a 64-bit [int];
    - a method on [*Lexer] is a computation in the monad [M]: it reads and
      updates the lexer, may panic (a slice out of range, the nil start
      state) and records the items handed to [enqueue];
    - the two loops that the source leaves unbounded ([AcceptRun] and the
      loop of [Next]) take a bound on their number of iterations. *)

From Stdlib Require Import ZArith List Bool Lia.
From Stdlib Require Import Strings.Ascii Strings.String.
Import ListNotations.

Local Open Scope string_scope.
Local Open Scope list_scope.
Local Open Scope Z_scope.

(** ** Strings as byte sequences *)

Module Str.

Definition byte_of (a : ascii) : Z := Z.of_N (N_of_ascii a).

Definition len (s : string) : Z := Z.of_nat (String.length s).

Fixpoint drop (n : nat) (s : string) : string :=
  match n, s with
  | O, _ => s
  | S _, EmptyString => EmptyString
  | S k, String _ t => drop k t
  end.

Fixpoint take (n : nat) (s : string) : string :=
  match n, s with
  | O, _ => EmptyString
  | S _, EmptyString => EmptyString
  | S k, String a t => String a (take k t)
  end.

(** [s[i:]]: a run-time panic unless [0 <= i <= len(s)]. *)
Definition from (s : string) (i : Z) : option string :=
  if (0 <=? i) && (i <=? len s) then Some (drop (Z.to_nat i) s) else None.

(** [s[i:j]]: a run-time panic unless [0 <= i <= j <= len(s)]. *)
Definition slice (s : string) (i j : Z) : option string :=
  if (0 <=? i) && (i <=? j) && (j <=? len s)
  then Some (take (Z.to_nat (j - i)) (drop (Z.to_nat i) s))
  else None.

(** [strings.HasPrefix]:
    [len(s) >= len(prefix) && s[0:len(prefix)] == prefix]. *)
Definition HasPrefix (s prefix : string) : bool :=
  (len prefix <=? len s) &&
  String.eqb (take (String.length prefix) s) prefix.

(** [strings.IndexByte]. *)
Fixpoint IndexByte_from (i : Z) (s : string) (b : Z) : Z :=
  match s with
  | EmptyString => -1
  | String a t => if byte_of a =? b then i else IndexByte_from (i + 1) t b
  end.

Definition IndexByte (s : string) (b : Z) : Z := IndexByte_from 0 s b.

(** [strings.Index]: the first offset at which [sub] occurs in [s]. *)
Fixpoint Index_from (i : Z) (s sub : string) : Z :=
  if HasPrefix s sub then i
  else match s with
       | EmptyString => -1
       | String _ t => Index_from (i + 1) t sub
       end.

Definition Index (s sub : string) : Z := Index_from 0 s sub.

End Str.

(** ** Package [unicode/utf8] *)

Module utf8.

Definition rune := Z.

Definition RuneError : rune := 0xFFFD.
Definition RuneSelf : Z := 0x80.
Definition MaxRune : rune := 0x10FFFF.
Definition UTFMax : Z := 4.

Definition surrogateMin : rune := 0xD800.
Definition surrogateMax : rune := 0xDFFF.

Definition tx : Z := 0x80.
Definition t2 : Z := 0xC0.
Definition t3 : Z := 0xE0.
Definition t4 : Z := 0xF0.
Definition t5 : Z := 0xF8.

Definition maskx : Z := 0x3F.
Definition mask2 : Z := 0x1F.
Definition mask3 : Z := 0x0F.
Definition mask4 : Z := 0x07.

Definition rune1Max : rune := 0x7F.
Definition rune2Max : rune := 0x7FF.
Definition rune3Max : rune := 0xFFFF.

(** [utf8.ValidRune]. *)
Definition ValidRune (r : rune) : bool :=
  ((0 <=? r) && (r <? surrogateMin)) ||
  ((surrogateMax <? r) && (r <=? MaxRune)).

(** [utf8.DecodeRuneInString], as the cascade of range tests on the
    leading byte and on each continuation byte: the rune at the head of
    [s] and its width in bytes, [(RuneError, 0)] on the empty string and
    [(RuneError, 1)] on an encoding that is not well formed. *)
Definition DecodeRuneInString (s : string) : rune * Z :=
  match s with
  | EmptyString => (RuneError, 0)
  | String a0 s1 =>
    let c0 := Str.byte_of a0 in
    (* 1-byte, 7-bit sequence? *)
    if c0 <? tx then (c0, 1)
    (* unexpected continuation byte? *)
    else if c0 <? t2 then (RuneError, 1)
    else
    (* need first continuation byte *)
    match s1 with
    | EmptyString => (RuneError, 1)
    | String a1 s2 =>
      let c1 := Str.byte_of a1 in
      if (c1 <? tx) || (t2 <=? c1) then (RuneError, 1)
      (* 2-byte, 11-bit sequence? *)
      else if c0 <? t3 then
        let r := Z.lor (Z.shiftl (Z.land c0 mask2) 6) (Z.land c1 maskx) in
        if r <=? rune1Max then (RuneError, 1) else (r, 2)
      else
      (* need second continuation byte *)
      match s2 with
      | EmptyString => (RuneError, 1)
      | String a2 s3 =>
        let c2 := Str.byte_of a2 in
        if (c2 <? tx) || (t2 <=? c2) then (RuneError, 1)
        (* 3-byte, 16-bit sequence? *)
        else if c0 <? t4 then
          let r := Z.lor (Z.lor (Z.shiftl (Z.land c0 mask3) 12)
                                (Z.shiftl (Z.land c1 maskx) 6))
                         (Z.land c2 maskx) in
          if r <=? rune2Max then (RuneError, 1)
          else if (surrogateMin <=? r) && (r <=? surrogateMax)
               then (RuneError, 1)
          else (r, 3)
        else
        (* need third continuation byte *)
        match s3 with
        | EmptyString => (RuneError, 1)
        | String a3 _ =>
          let c3 := Str.byte_of a3 in
          if (c3 <? tx) || (t2 <=? c3) then (RuneError, 1)
          (* 4-byte, 21-bit sequence? *)
          else if c0 <? t5 then
            let r := Z.lor (Z.lor (Z.lor (Z.shiftl (Z.land c0 mask4) 18)
                                         (Z.shiftl (Z.land c1 maskx) 12))
                                  (Z.shiftl (Z.land c2 maskx) 6))
                           (Z.land c3 maskx) in
            if (r <=? rune3Max) || (MaxRune <? r) then (RuneError, 1)
            else (r, 4)
          else (RuneError, 1)
        end
      end
    end
  end.

Definition char_of (b : Z) : ascii := ascii_of_N (Z.to_N b).

(** [string(r)]: the UTF-8 encoding of a rune, that of [RuneError] for a
    rune that is not valid. *)
Definition EncodeRune (r : rune) : string :=
  if (0 <=? r) && (r <=? rune1Max) then String (char_of r) ""
  else if (0 <=? r) && (r <=? rune2Max) then
    String (char_of (Z.lor t2 (Z.shiftr r 6)))
      (String (char_of (Z.lor tx (Z.land r maskx))) "")
  else if negb (ValidRune r) then
    String (char_of 0xEF) (String (char_of 0xBF) (String (char_of 0xBD) ""))
  else if r <=? rune3Max then
    String (char_of (Z.lor t3 (Z.shiftr r 12)))
      (String (char_of (Z.lor tx (Z.land (Z.shiftr r 6) maskx)))
        (String (char_of (Z.lor tx (Z.land r maskx))) ""))
  else
    String (char_of (Z.lor t4 (Z.shiftr r 18)))
      (String (char_of (Z.lor tx (Z.land (Z.shiftr r 12) maskx)))
        (String (char_of (Z.lor tx (Z.land (Z.shiftr r 6) maskx)))
          (String (char_of (Z.lor tx (Z.land r maskx))) ""))).

(** The well-formed UTF-8 byte sequences of the Unicode standard
    (table 3-7), as a test on the head of a byte string: this is the
    reference against which the decoder is checked. *)
Definition in_range (lo hi b : Z) : bool := (lo <=? b) && (b <=? hi).

Definition well_formed_head (s : string) : bool :=
  match s with
  | EmptyString => false
  | String a0 s1 =>
    let c0 := Str.byte_of a0 in
    if in_range 0x00 0x7F c0 then true
    else match s1 with
    | EmptyString => false
    | String a1 s2 =>
      let c1 := Str.byte_of a1 in
      if in_range 0xC2 0xDF c0 then in_range 0x80 0xBF c1
      else match s2 with
      | EmptyString => false
      | String a2 s3 =>
        let c2 := Str.byte_of a2 in
        if c0 =? 0xE0 then in_range 0xA0 0xBF c1 && in_range 0x80 0xBF c2
        else if in_range 0xE1 0xEC c0 then
          in_range 0x80 0xBF c1 && in_range 0x80 0xBF c2
        else if c0 =? 0xED then
          in_range 0x80 0x9F c1 && in_range 0x80 0xBF c2
        else if in_range 0xEE 0xEF c0 then
          in_range 0x80 0xBF c1 && in_range 0x80 0xBF c2
        else match s3 with
        | EmptyString => false
        | String a3 _ =>
          let c3 := Str.byte_of a3 in
          if c0 =? 0xF0 then
            in_range 0x90 0xBF c1 && in_range 0x80 0xBF c2 &&
            in_range 0x80 0xBF c3
          else if in_range 0xF1 0xF3 c0 then
            in_range 0x80 0xBF c1 && in_range 0x80 0xBF c2 &&
            in_range 0x80 0xBF c3
          else if c0 =? 0xF4 then
            in_range 0x80 0x8F c1 && in_range 0x80 0xBF c2 &&
            in_range 0x80 0xBF c3
          else false
        end
      end
    end
  end.

(** A malformed encoding starts the (non-empty) byte string [s]. *)
Definition malformed (s : string) : bool :=
  negb (String.eqb s "") && negb (well_formed_head s).

End utf8.

(** ** Packages [strings] and [unicode]: rune search and range tables *)

Module strings.

Import utf8.

(** The loop [for i, r := range s { if r == utf8.RuneError { return i } }]:
    the offset of the first rune of [s] that decodes to [RuneError].
    [skip] counts the bytes of the current rune still to be passed. *)
Fixpoint index_rune_error (i : Z) (skip : nat) (s : string) : Z :=
  match s with
  | EmptyString => -1
  | String _ t =>
    match skip with
    | S k => index_rune_error (i + 1) k t
    | O =>
      let (r, w) := DecodeRuneInString s in
      if r =? RuneError then i
      else index_rune_error (i + 1) (Z.to_nat (w - 1)) t
    end
  end.

(** [strings.IndexRune]: the offset of the first instance of the code
    point [r] in [s], or -1; for [RuneError], of the first invalid byte
    sequence as well. *)
Definition IndexRune (s : string) (r : rune) : Z :=
  if (0 <=? r) && (r <? RuneSelf) then Str.IndexByte s r
  else if r =? RuneError then index_rune_error 0 0 s
  else if negb (ValidRune r) then -1
  else Str.Index s (EncodeRune r).

End strings.

Module unicode.

Import utf8.

(** [unicode.Range16] and [unicode.Range32]: the code points
    [Lo, Lo+Stride, ..., Hi]. *)
Record Range : Type := mkRange { Lo : Z; Hi : Z; Stride : Z }.

(** [unicode.RangeTable]: a set of code points as a list of ranges. *)
Record RangeTable : Type := mkRangeTable
  { R16 : list Range; R32 : list Range }.

Definition in_Range (r : rune) (g : Range) : bool :=
  (Lo g <=? r) && (r <=? Hi g) &&
  ((Stride g =? 1) || ((r - Lo g) mod Stride g =? 0)).

(** [unicode.Is]: whether the rune is in the table of ranges.  The
    package searches the two lists, which it requires to be sorted; the
    result is membership in one of the ranges. *)
Definition Is (rangeTab : RangeTable) (r : rune) : bool :=
  existsb (in_Range r) (R16 rangeTab) || existsb (in_Range r) (R32 rangeTab).

End unicode.

(** ** Package [lexer] *)

Module lexer.

Import utf8.

(** [const EOF rune = 0x04] *)
Definition EOF : rune := 0x04.

(** [type ItemType uint16] and the two special item types,
    [math.MaxUint16 - iota]. *)
Definition ItemType := Z.
Definition MaxUint16 : Z := 65535.
Definition ItemEOF : ItemType := MaxUint16 - 0.
Definition ItemError : ItemType := MaxUint16 - 1.

(** [type Item struct { Type ItemType; Pos int; Value string }] *)
Record Item : Type := mkItem { Typ : ItemType; Pos_ : Z; Value : string }.

(** *** State functions

    [type StateFn func(l *Lexer) StateFn].  The fields of [Lexer] are
    private to the package: a state function, written by the caller,
    acts on the lexer through the exported methods only.  It is
    therefore a tree of method calls, each continued on the value the
    call returned, that ends with the next state function or with nil.
    ([Next] is left out of the signature: no method is re-entrant.) *)
Inductive op : Type -> Type :=
| OStart : op Z
| OPos : op Z
| OCurrent : op string
| OLast : op (rune * Z)
| OAdvance : op (rune * Z)
| OBackup : op unit
| OPeek : op (rune * Z)
| OIgnore : op unit
| OAccept (valid : string) : op bool
| OAcceptRange (tab : unicode.RangeTable) : op bool
| OAcceptRun (valid : string) : op Z
| OAcceptRunRange (tab : unicode.RangeTable) : op Z
| OAcceptString (s : string) : op bool
| OErrorf (msg : string) : op unit
| OEmit (t : ItemType) : op unit.

Inductive Prog (R : Type) : Type :=
| Return (r : R)
| Call (A : Type) (o : op A) (k : A -> Prog R).

Arguments Return {R} r.
Arguments Call {R A} o k.

#[warnings="-register-all"] Inductive StateFn : Type :=
| SF (body : Prog (option StateFn)).

(** [type Lexer struct] *)
Record Lexer : Type := mkLexer
  { input : string              (* string being scanned *)
  ; start : Z                   (* start position for the current lexeme *)
  ; pos : Z                     (* current position *)
  ; width : Z                   (* length of the last rune read *)
  ; last : rune                 (* the last rune read *)
  ; state : option StateFn      (* the current state *)
  ; items : list Item           (* buffer of lexed items *)
  }.

Definition set_start (v : Z) (l : Lexer) : Lexer :=
  mkLexer (input l) v (pos l) (width l) (last l) (state l) (items l).
Definition set_pos (v : Z) (l : Lexer) : Lexer :=
  mkLexer (input l) (start l) v (width l) (last l) (state l) (items l).
Definition set_width (v : Z) (l : Lexer) : Lexer :=
  mkLexer (input l) (start l) (pos l) v (last l) (state l) (items l).
Definition set_last (v : rune) (l : Lexer) : Lexer :=
  mkLexer (input l) (start l) (pos l) (width l) v (state l) (items l).
Definition set_state (v : option StateFn) (l : Lexer) : Lexer :=
  mkLexer (input l) (start l) (pos l) (width l) (last l) v (items l).
Definition set_items (v : list Item) (l : Lexer) : Lexer :=
  mkLexer (input l) (start l) (pos l) (width l) (last l) (state l) v.

(** *** The monad of the methods

    A method returns a value and the updated lexer, together with the
    items it passed to [enqueue] in the order of the calls; or it
    panics; or a loop ran past its bound. *)
Inductive result (A : Type) : Type :=
| Ok (a : A)
| Panic (msg : string)
| OutOfFuel.

Arguments Ok {A} a.
Arguments Panic {A} msg.
Arguments OutOfFuel {A}.

Definition M (A : Type) : Type := Lexer -> result (A * Lexer * list Item).

Definition ret {A} (a : A) : M A := fun l => Ok (a, l, []).

Definition bind {A B} (m : M A) (f : A -> M B) : M B :=
  fun l =>
    match m l with
    | Ok (a, l1, log1) =>
      match f a l1 with
      | Ok (b, l2, log2) => Ok (b, l2, log1 ++ log2)
      | Panic msg => Panic msg
      | OutOfFuel => OutOfFuel
      end
    | Panic msg => Panic msg
    | OutOfFuel => OutOfFuel
    end.

Notation "x <- m ;; k" := (bind m (fun x => k))
  (at level 61, m at next level, right associativity).
Notation "m ;; k" := (bind m (fun _ => k))
  (at level 61, right associativity).

Definition get : M Lexer := fun l => Ok (l, l, []).
Definition modify (f : Lexer -> Lexer) : M unit := fun l => Ok (tt, f l, []).
Definition panic {A} (msg : string) : M A := fun _ => Panic msg.
Definition out_of_fuel {A} : M A := fun _ => OutOfFuel.
Definition tell (i : Item) : M unit := fun l => Ok (tt, l, [i]).

(** A slice expression: its value, or the run-time panic. *)
Definition sliced (o : option string) : M string :=
  match o with
  | Some s => ret s
  | None => panic "slice bounds out of range"
  end.

(** *** The constructor *)

(** [func New(start StateFn, input string) *Lexer]; [list.New()] is the
    empty list, the other fields take their zero value. *)
Definition New (start_ : option StateFn) (input_ : string) : result Lexer :=
  match start_ with
  | None => Panic "nil start state"
  | Some f => Ok (mkLexer input_ 0 0 0 0 (Some f) [])
  end.

(** *** The scanner API *)

Definition Start : M Z := l <- get ;; ret (start l).

Definition Pos : M Z := l <- get ;; ret (pos l).

Definition Current : M string :=
  l <- get ;; sliced (Str.slice (input l) (start l) (pos l)).

Definition Last : M (rune * Z) := l <- get ;; ret (last l, width l).

Definition Advance : M (rune * Z) :=
  l <- get ;;
  if Str.len (input l) <=? pos l then
    modify (set_width 0) ;;
    ret (EOF, 0)
  else
    s <- sliced (Str.from (input l) (pos l)) ;;
    let (r, w) := DecodeRuneInString s in
    modify (set_last r) ;;
    modify (set_width w) ;;
    if (r =? RuneError) && (w =? 1) then
      ret (r, w)
    else
      modify (set_pos (pos l + w)) ;;
      ret (r, w).

Definition Backup : M unit :=
  l <- get ;; modify (set_pos (pos l - width l)).

(** [defer func() { l.Backup() }(); return l.Advance()] *)
Definition Peek : M (rune * Z) :=
  cw <- Advance ;;
  Backup ;;
  ret cw.

Definition Ignore : M unit :=
  l <- get ;; modify (set_start (pos l)).

Definition Accept (valid : string) : M bool :=
  rw <- Advance ;;
  let ok := 0 <=? strings.IndexRune valid (fst rw) in
  if negb ok then Backup ;; ret ok
  else ret ok.

Definition AcceptRange (tab : unicode.RangeTable) : M bool :=
  rw <- Advance ;;
  let ok := unicode.Is tab (fst rw) in
  if negb ok then Backup ;; ret ok
  else ret ok.

(** [for l.Accept(valid) { n++ }], at most [fuel] calls of [Accept]. *)
Fixpoint AcceptRun_loop (fuel : nat) (valid : string) (n : Z) : M Z :=
  match fuel with
  | O => out_of_fuel
  | S fuel' =>
    ok <- Accept valid ;;
    if ok then AcceptRun_loop fuel' valid (n + 1) else ret n
  end.

Definition AcceptRun (fuel : nat) (valid : string) : M Z :=
  AcceptRun_loop fuel valid 0.

Fixpoint AcceptRunRange_loop (fuel : nat) (tab : unicode.RangeTable)
                             (n : Z) : M Z :=
  match fuel with
  | O => out_of_fuel
  | S fuel' =>
    ok <- AcceptRange tab ;;
    if ok then AcceptRunRange_loop fuel' tab (n + 1) else ret n
  end.

Definition AcceptRunRange (fuel : nat) (tab : unicode.RangeTable) : M Z :=
  AcceptRunRange_loop fuel tab 0.

Definition AcceptString (s : string) : M bool :=
  l <- get ;;
  rest <- sliced (Str.from (input l) (pos l)) ;;
  if Str.HasPrefix rest s then
    modify (set_pos (pos l + Str.len s)) ;;
    ret true
  else ret false.

(** *** The token queue *)

(** [l.items.PushBack(i)]; the call is recorded in the log. *)
Definition enqueue (i : Item) : M unit :=
  tell i ;;
  l <- get ;; modify (set_items (items l ++ [i])).

Definition dequeue : M (option Item) :=
  l <- get ;;
  match items l with
  | [] => ret None
  | head :: rest => modify (set_items rest) ;; ret (Some head)
  end.

(** [Errorf]: [msg] is the string [fmt.Sprintf(format, args...)]; the
    result is the nil state. *)
Definition Errorf (msg : string) : M (option StateFn) :=
  l <- get ;;
  enqueue (mkItem ItemError (start l) msg) ;;
  ret None.

Definition Emit (t : ItemType) : M unit :=
  l <- get ;;
  v <- sliced (Str.slice (input l) (start l) (pos l)) ;;
  enqueue (mkItem t (start l) v) ;;
  modify (set_start (pos l)).

(** *** Running a state function *)

Definition exec_op (fuel : nat) {A} (o : op A) : M A :=
  match o in op A return M A with
  | OStart => Start
  | OPos => Pos
  | OCurrent => Current
  | OLast => Last
  | OAdvance => Advance
  | OBackup => Backup
  | OPeek => Peek
  | OIgnore => Ignore
  | OAccept valid => Accept valid
  | OAcceptRange tab => AcceptRange tab
  | OAcceptRun valid => AcceptRun fuel valid
  | OAcceptRunRange tab => AcceptRunRange fuel tab
  | OAcceptString s => AcceptString s
  | OErrorf msg => Errorf msg ;; ret tt
  | OEmit t => Emit t
  end.

Fixpoint exec (fuel : nat) {R} (p : Prog R) : M R :=
  match p with
  | Return r => ret r
  | Call o k => a <- exec_op fuel o ;; exec fuel (k a)
  end.

(** [l.state(l)] *)
Definition call_state (fuel : nat) (f : StateFn) : M (option StateFn) :=
  match f with SF body => exec fuel body end.

(** *** The parser API *)

(** [Next]; the state functions are called at most [fuel] times. *)
Fixpoint Next (fuel : nat) : M Item :=
  fun l0 =>
  (head <- dequeue ;;
   match head with
   | Some i => ret i
   | None =>
     l <- get ;;
     match state l with
     | None => ret (mkItem ItemEOF (start l) "")
     | Some f =>
       match fuel with
       | O => out_of_fuel
       | S fuel' =>
         s' <- call_state fuel f ;;
         modify (set_state s') ;;
         Next fuel'
       end
     end
   end) l0.

(** [n] successive calls of a method, and the values they returned. *)
Fixpoint times {A} (n : nat) (m : M A) : M (list A) :=
  match n with
  | O => ret []
  | S n' =>
    a <- m ;;
    rest <- times n' m ;;
    ret (a :: rest)
  end.

(** *** Sequences of calls of the exported methods *)

Inductive call : Type :=
| Invoke (A : Type) (o : op A).

Arguments Invoke {A} o.

Definition exec_call (fuel : nat) (c : call) : M unit :=
  match c with Invoke o => exec_op fuel o ;; ret tt end.

Fixpoint run_calls (fuel : nat) (cs : list call) : M unit :=
  match cs with
  | [] => ret tt
  | c :: cs' => exec_call fuel c ;; run_calls fuel cs'
  end.

(** *** Predicates on the cursor *)

(** The position invariant: [0 <= start <= pos <= len(input)]. *)
Definition offsets_ok (l : Lexer) : Prop :=
  0 <= start l /\ start l <= pos l /\ pos l <= Str.len (input l).

(** The bytes at [pos] are a malformed encoding. *)
Definition malformed_here (l : Lexer) : bool :=
  (0 <=? pos l) && (pos l <? Str.len (input l)) &&
  malformed (Str.drop (Z.to_nat (pos l)) (input l)).

(** The caller contract on [Backup] as the documentation words it: no two
    calls of [Backup] without a call of [Advance] or [Peek] in between.
    [armed] tells whether a call of [Backup] is allowed next. *)
Fixpoint backup_contract (armed : bool) (cs : list call) : bool :=
  match cs with
  | [] => true
  | Invoke o :: cs' =>
    match o with
    | OBackup => armed && backup_contract false cs'
    | OAdvance | OPeek => backup_contract true cs'
    | _ => backup_contract armed cs'
    end
  end.

(** What a call needs for the position invariant to survive it:
    [Backup] finds the last rune read inside the current lexeme, and the
    methods that read a rune and may put it back do not start on a
    malformed encoding. *)
Definition call_ok (c : call) (l : Lexer) : bool :=
  match c with
  | Invoke o =>
    match o with
    | OBackup => width l <=? pos l - start l
    | OPeek | OAccept _ | OAcceptRange _ | OAcceptRun _ | OAcceptRunRange _ =>
      negb (malformed_here l)
    | _ => true
    end
  end.

(** The lexers reached from [l0] by calls that all meet [call_ok]. *)
Inductive reachable (fuel : nat) (l0 : Lexer) : Lexer -> Prop :=
| reach_init : reachable fuel l0 l0
| reach_call (l l' : Lexer) (c : call) (log : list Item) :
    reachable fuel l0 l ->
    call_ok c l = true ->
    exec_call fuel c l = Ok (tt, l', log) ->
    reachable fuel l0 l'.

(** The invariant of the cursor: the offsets, and a width that is not
    negative. *)
Definition cursor_inv (l : Lexer) : Prop :=
  offsets_ok l /\ 0 <= width l.

(** The invariant of the loops [AcceptRun] and [AcceptRunRange]: on a
    malformed encoding the current lexeme is not empty. *)
Definition run_inv (l : Lexer) : Prop :=
  cursor_inv l /\ (malformed_here l = true -> start l < pos l).

(** The item [Next] makes up once the state is nil. *)
Definition eof_item (l : Lexer) : Item := mkItem ItemEOF (start l) "".

(** *** Specifications *)

(** [m], run on [l], ends in a result that [Q] accepts, if it returns. *)
Definition post {A} (m : M A) (l : Lexer)
                (Q : A -> Lexer -> list Item -> Prop) : Prop :=
  forall a l' log, m l = Ok (a, l', log) -> Q a l' log.

(** The queue of [l'] is that of [l] followed by the items of [log], and
    the current state is the same. *)
Definition appends (l l' : Lexer) (log : list Item) : Prop :=
  items l' = items l ++ log /\ state l' = state l.

(** [m] touches the queue only by appending the items it logs, and leaves
    the current state alone. *)
Definition appending {A} (m : M A) : Prop :=
  forall l, post m l (fun _ l' log => appends l l' log).

(** The four ways through [Advance]. *)
Inductive Advance_spec (l : Lexer)
  : result (rune * Z * Lexer * list Item) -> Prop :=
| Advance_at_end :
    Str.len (input l) <= pos l ->
    Advance_spec l (Ok (EOF, 0, set_width 0 l, []))
| Advance_out_of_range :
    pos l < 0 ->
    Advance_spec l (Panic "slice bounds out of range")
| Advance_invalid :
    0 <= pos l < Str.len (input l) ->
    malformed_here l = true ->
    Advance_spec l
      (Ok (RuneError, 1, set_width 1 (set_last RuneError l), []))
| Advance_rune (r : rune) (w : Z) :
    0 <= pos l < Str.len (input l) ->
    malformed_here l = false ->
    DecodeRuneInString (Str.drop (Z.to_nat (pos l)) (input l)) = (r, w) ->
    1 <= w <= UTFMax ->
    pos l + w <= Str.len (input l) ->
    Advance_spec l
      (Ok (r, w, set_pos (pos l + w) (set_width w (set_last r l)), [])).

End lexer.

(** ** Frame conditions of the methods *)

Module frames.

Import utf8 lexer.

(** What every run of the exported methods keeps, whatever the calls:
    the offsets do not pass the end of the input and the recorded width is
    that of a rune or 0. *)
Definition within_input (l : Lexer) : Prop :=
  pos l <= Str.len (input l) /\ start l <= Str.len (input l) /\
  0 <= width l <= UTFMax.

(** [m] enqueues nothing and leaves the queue, the current state and the
    input as they are. *)
Definition silent {A} (m : M A) : Prop :=
  forall l, post m l (fun _ l' log =>
    log = [] /\ items l' = items l /\ state l' = state l /\
    input l' = input l).

(** [m] leaves [start] as it is. *)
Definition keeps_start {A} (m : M A) : Prop :=
  forall l, post m l (fun _ l' _ => start l' = start l).

(** [m] keeps [within_input]. *)
Definition keeps_within {A} (m : M A) : Prop :=
  forall l, within_input l -> post m l (fun _ l' _ => within_input l').

(** The frame of one exported method: what it logs, and where it leaves
    [start]. *)
Definition op_frame {A} (o : op A) (l l' : Lexer) (log : list Item)
  : Prop :=
  match o with
  | OEmit t =>
    exists v, Str.slice (input l) (start l) (pos l) = Some v /\
              log = [mkItem t (start l) v] /\ start l' = pos l
  | OErrorf msg => log = [mkItem ItemError (start l) msg] /\ start l' = start l
  | OIgnore => log = [] /\ start l' = pos l
  | _ => log = [] /\ start l' = start l
  end.

(** [math.MaxInt32]: the largest [int] of the platforms whose [int] has
    32 bits, and a lower bound of the largest [int] of the others. *)
Definition MaxInt32 : Z := 2 ^ 31 - 1.

End frames.

(** ** Runs of bytes *)

Module runs.

Import utf8.

(** Every byte of [s] is below [RuneSelf]: each one is a rune by itself. *)
Fixpoint is_ascii (s : string) : bool :=
  match s with
  | EmptyString => true
  | String a t => (Str.byte_of a <? RuneSelf) && is_ascii t
  end.

(** The number of leading bytes of [s] that occur in [valid]. *)
Fixpoint span_len (valid s : string) : nat :=
  match s with
  | EmptyString => O
  | String a t =>
    if 0 <=? Str.IndexByte valid (Str.byte_of a)
    then S (span_len valid t) else O
  end.

End runs.

(** ** Items as slices of the input *)

Module tiling.

Import lexer.

(** The items of [log], in order, are slices of [inp] that do not
    overlap: each value is the input from the position of its item on,
    each item begins at or after the end of the one before, the first one
    at or after [p], and the last one ends at or before [q]. *)
Fixpoint tiled (inp : string) (p : Z) (log : list Item) (q : Z) : Prop :=
  match log with
  | [] => p <= q
  | i :: rest =>
    p <= Pos_ i /\
    Str.slice inp (Pos_ i) (Pos_ i + Str.len (Value i)) = Some (Value i) /\
    tiled inp (Pos_ i + Str.len (Value i)) rest q
  end.

(** A call of [Errorf]. *)
Definition is_Errorf (c : call) : bool :=
  match c with
  | Invoke o => match o with OErrorf _ => true | _ => false end
  end.

(** The lexers reached from [l0] by calls other than [Errorf] that all
    meet [call_ok], with the items enqueued on the way. *)
Inductive scanned (fuel : nat) (l0 : Lexer) : Lexer -> list Item -> Prop :=
| scanned_init : scanned fuel l0 l0 []
| scanned_call (l l' : Lexer) (c : call) (log log1 : list Item) :
    scanned fuel l0 l log ->
    call_ok c l = true ->
    is_Errorf c = false ->
    exec_call fuel c l = Ok (tt, l', log1) ->
    scanned fuel l0 l' (log ++ log1).

End tiling.

(** * Properties *)

(** ** Byte strings *)

Module Str_facts.

Import Str.

Lemma len_nonneg s : 0 <= len s.
Proof. unfold len. lia. Qed.

Lemma len_String a s : len (String a s) = len s + 1.
Proof. unfold len. cbn [String.length]. lia. Qed.

Lemma len_append s t : len (s ++ t)%string = len s + len t.
Proof.
  induction s as [| a s IH]; cbn [append].
  - reflexivity.
  - rewrite !len_String, IH. lia.
Qed.

Lemma len_drop n s :
  (n <= String.length s)%nat -> len (drop n s) = len s - Z.of_nat n.
Proof.
  revert s. induction n as [| n IH]; intros s Hn.
  - cbn [drop]. lia.
  - destruct s as [| a s]; cbn [String.length] in Hn; [lia |].
    cbn [drop]. rewrite len_String, IH by lia. lia.
Qed.

Lemma drop_nonempty n s : (n < String.length s)%nat -> drop n s <> "".
Proof.
  intros Hn Hd. pose proof (len_drop n s ltac:(lia)) as Hl.
  rewrite Hd in Hl. unfold len in Hl. cbn [String.length] in Hl. lia.
Qed.

Lemma take_append p rest : take (String.length p) (p ++ rest)%string = p.
Proof.
  induction p as [| a p IH]; cbn [String.length append take].
  - destruct rest; reflexivity.
  - now rewrite IH.
Qed.

Lemma take_drop n s : s = (take n s ++ drop n s)%string.
Proof.
  revert s. induction n as [| n IH]; intros s.
  - reflexivity.
  - destruct s as [| a s]; cbn [take drop append]; [reflexivity |].
    now rewrite <- IH.
Qed.

(** [HasPrefix] decides the byte-exact prefix relation. *)
Lemma HasPrefix_spec s p :
  HasPrefix s p = true <-> exists rest, s = (p ++ rest)%string.
Proof.
  unfold HasPrefix. rewrite andb_true_iff, Z.leb_le, String.eqb_eq. split.
  - intros [_ Ht]. exists (drop (String.length p) s).
    rewrite <- Ht at 1. apply take_drop.
  - intros [rest ->]. split.
    + rewrite len_append. pose proof (len_nonneg rest). lia.
    + apply take_append.
Qed.

Lemma HasPrefix_len s p : HasPrefix s p = true -> len p <= len s.
Proof.
  unfold HasPrefix. rewrite andb_true_iff, Z.leb_le. tauto.
Qed.

End Str_facts.

(** ** The decoder against the table of well-formed sequences *)

Module utf8_facts.

Import utf8.

Lemma byte_of_range a : 0 <= Str.byte_of a < 256.
Proof.
  unfold Str.byte_of. pose proof (N_ascii_bounded a). lia.
Qed.

Lemma land_disjoint a b k :
  0 <= k -> 0 <= b < 2 ^ k -> Z.land (a * 2 ^ k) b = 0.
Proof.
  intros Hk Hb. apply Z.bits_inj'. intros n Hn.
  rewrite Z.land_spec, Z.bits_0.
  destruct (Z.lt_ge_cases n k) as [Hlt | Hge].
  - now rewrite Z.mul_pow2_bits_low.
  - assert (Hbn : Z.testbit b n = false).
    { destruct (Z.eq_dec b 0) as [-> | Hnz]; [apply Z.bits_0 |].
      apply Z.bits_above_log2; [lia |].
      apply Z.lt_le_trans with k; [| assumption].
      apply Z.log2_lt_pow2; lia. }
    rewrite Hbn. apply andb_false_r.
Qed.

Lemma cat2 a b k :
  0 <= k -> 0 <= b < 2 ^ k -> Z.lor (Z.shiftl a k) b = a * 2 ^ k + b.
Proof.
  intros Hk Hb. rewrite Z.shiftl_mul_pow2 by assumption.
  pose proof (land_disjoint a b k Hk Hb) as Hd.
  rewrite <- (Z.lxor_lor _ _ Hd). symmetry. now apply Z.add_nocarry_lxor.
Qed.

Lemma rune2_arith c0 c1 :
  Z.lor (Z.shiftl (Z.land c0 mask2) 6) (Z.land c1 maskx)
  = (c0 mod 32) * 64 + c1 mod 64.
Proof.
  change mask2 with (Z.ones 5). change maskx with (Z.ones 6).
  rewrite !Z.land_ones by lia.
  rewrite cat2; [reflexivity | lia |].
  change (2 ^ 6) with 64. apply Z.mod_pos_bound. lia.
Qed.

Lemma rune3_arith c0 c1 c2 :
  Z.lor (Z.lor (Z.shiftl (Z.land c0 mask3) 12) (Z.shiftl (Z.land c1 maskx) 6))
        (Z.land c2 maskx)
  = (c0 mod 16) * 4096 + (c1 mod 64) * 64 + c2 mod 64.
Proof.
  change mask3 with (Z.ones 4). change maskx with (Z.ones 6).
  rewrite !Z.land_ones by lia.
  change 12 with (6 + 6) at 1. rewrite <- Z.shiftl_shiftl by lia.
  rewrite <- Z.shiftl_lor.
  assert (H1 : 0 <= c1 mod 2 ^ 6 < 2 ^ 6) by (apply Z.mod_pos_bound; lia).
  assert (H2 : 0 <= c2 mod 2 ^ 6 < 2 ^ 6) by (apply Z.mod_pos_bound; lia).
  rewrite (cat2 (c0 mod 2 ^ 4)) by (assumption || lia).
  rewrite cat2 by (assumption || lia).
  change (2 ^ 6) with 64. change (2 ^ 4) with 16. ring.
Qed.

Lemma rune4_arith c0 c1 c2 c3 :
  Z.lor (Z.lor (Z.lor (Z.shiftl (Z.land c0 mask4) 18)
                      (Z.shiftl (Z.land c1 maskx) 12))
               (Z.shiftl (Z.land c2 maskx) 6))
        (Z.land c3 maskx)
  = (c0 mod 8) * 262144 + (c1 mod 64) * 4096 + (c2 mod 64) * 64 + c3 mod 64.
Proof.
  change mask4 with (Z.ones 3). change maskx with (Z.ones 6).
  rewrite !Z.land_ones by lia.
  change 18 with (6 + (6 + 6)) at 1. change 12 with (6 + 6) at 1.
  rewrite <- !Z.shiftl_shiftl by lia.
  rewrite <- !Z.shiftl_lor.
  assert (H1 : 0 <= c1 mod 2 ^ 6 < 2 ^ 6) by (apply Z.mod_pos_bound; lia).
  assert (H2 : 0 <= c2 mod 2 ^ 6 < 2 ^ 6) by (apply Z.mod_pos_bound; lia).
  assert (H3 : 0 <= c3 mod 2 ^ 6 < 2 ^ 6) by (apply Z.mod_pos_bound; lia).
  rewrite (cat2 (c0 mod 2 ^ 3)) by (assumption || lia).
  rewrite (cat2 _ (c2 mod 2 ^ 6)) by (assumption || lia).
  rewrite cat2 by (assumption || lia).
  change (2 ^ 6) with 64. change (2 ^ 3) with 8. ring.
Qed.
Ltac split_ifs :=
  repeat match goal with
    | |- context [if ?b then _ else _] => destruct b eqn:?
    end.

Ltac bool_to_Z :=
  repeat match goal with
    | H : _ && _ = true |- _ => apply andb_true_iff in H; destruct H
    | H : _ || _ = false |- _ => apply orb_false_iff in H; destruct H
    | H : _ && _ = false |- _ => apply andb_false_iff in H
    | H : _ || _ = true |- _ => apply orb_true_iff in H
    | H : negb _ = true |- _ => apply negb_true_iff in H
    | H : negb _ = false |- _ => apply negb_false_iff in H
    end;
  rewrite ?Z.ltb_lt, ?Z.ltb_ge, ?Z.leb_le, ?Z.leb_gt, ?Z.eqb_eq, ?Z.eqb_neq in *.

Ltac close_decode :=
  rewrite ?rune2_arith, ?rune3_arith, ?rune4_arith;
  split_ifs;
  try match goal with
    | |- negb ?b = true <-> _ => destruct b eqn:?
    end;
  cbn [negb];
  (split; intro; try reflexivity; try discriminate);
  try (exfalso;
       try match goal with
         | H : (_, _) = (_, _) |- _ =>
           apply pair_equal_spec in H; destruct H
         end;
       bool_to_Z; Z.to_euclidean_division_equations; lia).

Lemma DecodeRuneInString_malformed s :
  malformed s = true <-> DecodeRuneInString s = (RuneError, 1).
Proof.
  unfold malformed.
  destruct s as [| a0 s1]; [simpl; split; discriminate |].
  cbn [String.eqb negb andb].
  unfold well_formed_head, DecodeRuneInString, in_range.
  rewrite ?rune2_arith, ?rune3_arith, ?rune4_arith.
  pose proof (byte_of_range a0) as B0.
  set (c0 := Str.byte_of a0) in *. clearbody c0.
  unfold tx, t2, t3, t4, t5, rune1Max, rune2Max, rune3Max, MaxRune,
    surrogateMin, surrogateMax, RuneError.
  destruct s1 as [| a1 s2]; [close_decode |].
  pose proof (byte_of_range a1) as B1.
  set (c1 := Str.byte_of a1) in *. clearbody c1.
  destruct s2 as [| a2 s3]; [close_decode |].
  pose proof (byte_of_range a2) as B2.
  set (c2 := Str.byte_of a2) in *. clearbody c2.
  destruct s3 as [| a3 s4]; [close_decode |].
  pose proof (byte_of_range a3) as B3.
  set (c3 := Str.byte_of a3) in *. clearbody c3.
  close_decode.
Qed.

(** The width of a decoded rune: at least one byte of a non-empty string,
    at most [UTFMax], and never more than the string holds. *)
Lemma DecodeRuneInString_width s r w :
  DecodeRuneInString s = (r, w) ->
  s <> "" -> 1 <= w <= UTFMax /\ w <= Str.len s.
Proof.
  intros Hd Hs. unfold UTFMax.
  destruct s as [| a0 s1]; [congruence |].
  unfold DecodeRuneInString in Hd.
  pose proof (Str_facts.len_nonneg s1).
  rewrite Str_facts.len_String.
  destruct s1 as [| a1 s2];
    [revert Hd; split_ifs; intro Hd; apply pair_equal_spec in Hd; lia |].
  pose proof (Str_facts.len_nonneg s2).
  rewrite Str_facts.len_String in *.
  destruct s2 as [| a2 s3];
    [revert Hd; split_ifs; intro Hd; apply pair_equal_spec in Hd; lia |].
  pose proof (Str_facts.len_nonneg s3).
  rewrite Str_facts.len_String in *.
  destruct s3 as [| a3 s4];
    [revert Hd; split_ifs; intro Hd; apply pair_equal_spec in Hd; lia |].
  pose proof (Str_facts.len_nonneg s4).
  rewrite Str_facts.len_String in *.
  revert Hd; split_ifs; intro Hd; apply pair_equal_spec in Hd; lia.
Qed.

End utf8_facts.

(** ** The monad of the methods *)

Module M_facts.

Import lexer.

Lemma bind_Ok {A B} (m : M A) (f : A -> M B) l b l2 log :
  bind m f l = Ok (b, l2, log) ->
  exists a l1 log1 log2,
    m l = Ok (a, l1, log1) /\ f a l1 = Ok (b, l2, log2) /\
    log = log1 ++ log2.
Proof.
  unfold bind. destruct (m l) as [[[a l1] log1] | msg |]; try discriminate.
  destruct (f a l1) as [[[b' l2'] log2] | msg |] eqn:Hf; try discriminate.
  intros [= <- <- <-]. now exists a, l1, log1, log2.
Qed.

Lemma post_ret {A} (a : A) l (Q : A -> Lexer -> list Item -> Prop) :
  Q a l [] -> post (ret a) l Q.
Proof. intros HQ a' l' log [= <- <- <-]. exact HQ. Qed.

Lemma post_bind {A B} (m : M A) (f : A -> M B) l
      (Q1 : A -> Lexer -> list Item -> Prop)
      (Q : B -> Lexer -> list Item -> Prop) :
  post m l Q1 ->
  (forall a l1 log1, Q1 a l1 log1 ->
     post (f a) l1 (fun b l2 log2 => Q b l2 (log1 ++ log2))) ->
  post (bind m f) l Q.
Proof.
  intros Hm Hf b l2 log Hb.
  apply bind_Ok in Hb as (a & l1 & log1 & log2 & H1 & H2 & ->).
  exact (Hf a l1 log1 (Hm _ _ _ H1) _ _ _ H2).
Qed.

Lemma post_weaken {A} (m : M A) l (Q Q' : A -> Lexer -> list Item -> Prop) :
  post m l Q -> (forall a l' log, Q a l' log -> Q' a l' log) -> post m l Q'.
Proof. intros Hm HQ a l' log H. apply HQ, Hm, H. Qed.

End M_facts.

(** ** The cursor *)

Module cursor_facts.

Import utf8 lexer M_facts.

Lemma malformed_here_range l :
  malformed_here l = true -> 0 <= pos l < Str.len (input l).
Proof.
  unfold malformed_here. rewrite !andb_true_iff, Z.leb_le, Z.ltb_lt. tauto.
Qed.

Lemma malformed_here_decode l :
  0 <= pos l < Str.len (input l) ->
  (malformed_here l = true <->
   DecodeRuneInString (Str.drop (Z.to_nat (pos l)) (input l))
   = (RuneError, 1)).
Proof.
  intros Hp. rewrite <- utf8_facts.DecodeRuneInString_malformed.
  unfold malformed_here.
  replace (0 <=? pos l) with true by (symmetry; apply Z.leb_le; lia).
  replace (pos l <? Str.len (input l)) with true
    by (symmetry; apply Z.ltb_lt; lia).
  reflexivity.
Qed.

(** [Advance] takes one of its four ways. *)
Lemma AdvanceP l : Advance_spec l (Advance l).
Proof.
  unfold Advance, bind, get.
  destruct (Z.leb_spec (Str.len (input l)) (pos l)) as [Hend | Hlt].
  { cbn. now constructor. }
  unfold Str.from.
  destruct (Z.leb_spec 0 (pos l)) as [Hnn | Hneg]; cbn [andb].
  2: { cbn. now constructor. }
  replace (pos l <=? Str.len (input l)) with true
    by (symmetry; apply Z.leb_le; lia).
  cbn [sliced ret].
  set (s := Str.drop (Z.to_nat (pos l)) (input l)).
  assert (Hs : s <> "").
  { apply Str_facts.drop_nonempty. unfold Str.len in Hlt. lia. }
  assert (Hlen : Str.len s = Str.len (input l) - pos l).
  { unfold s. rewrite Str_facts.len_drop by (unfold Str.len in Hlt; lia).
    lia. }
  destruct (DecodeRuneInString s) as [r w] eqn:Hd.
  pose proof (utf8_facts.DecodeRuneInString_width s r w Hd Hs) as [Hw Hws].
  pose proof (malformed_here_decode l (conj Hnn Hlt)) as Hm.
  fold s in Hm. rewrite Hd in Hm.
  destruct ((r =? RuneError) && (w =? 1)) eqn:Ht.
  - apply andb_true_iff in Ht as [Hr Hw1].
    apply Z.eqb_eq in Hr, Hw1. subst r w.
    cbn. apply Advance_invalid; [lia | now apply Hm].
  - cbn. apply Advance_rune; try lia; try assumption.
    destruct (malformed_here l); [| reflexivity].
    destruct Hm as [Hm _]. specialize (Hm eq_refl).
    injection Hm as -> ->. cbn in Ht. discriminate.
Qed.

(** The outcome of [Advance] at the end of the input, on a malformed
    encoding, and on a negative offset. *)
Lemma Advance_end l :
  Str.len (input l) <= pos l ->
  Advance l = Ok (EOF, 0, set_width 0 l, []).
Proof.
  intros Hend. pose proof (Str_facts.len_nonneg (input l)).
  destruct (AdvanceP l); (reflexivity || lia).
Qed.

Lemma Advance_malformed l :
  malformed_here l = true ->
  Advance l = Ok (RuneError, 1, set_width 1 (set_last RuneError l), []).
Proof.
  intros Hm. pose proof (malformed_here_range l Hm).
  destruct (AdvanceP l); (reflexivity || congruence || lia).
Qed.

Lemma Backup_eq l : Backup l = Ok (tt, set_pos (pos l - width l) l, []).
Proof. reflexivity. Qed.

Lemma Lexer_ext l l' :
  input l = input l' -> start l = start l' -> pos l = pos l' ->
  width l = width l' -> last l = last l' -> state l = state l' ->
  items l = items l' -> l = l'.
Proof. destruct l, l'; cbn; intros; subst; reflexivity. Qed.

(** [Peek] on a malformed encoding: the rune is put back although it was
    never taken, and [pos] moves one byte to the left. *)
Lemma Peek_malformed l :
  malformed_here l = true ->
  Peek l = Ok (RuneError, 1,
               set_pos (pos l - 1) (set_width 1 (set_last RuneError l)), []).
Proof.
  intros Hm. unfold Peek, bind. rewrite (Advance_malformed l Hm).
  reflexivity.
Qed.

(** [Peek] anywhere else, from a non-negative offset: the same rune and
    width at every call, and [pos] as it was. *)
Lemma Peek_end l :
  Str.len (input l) <= pos l -> Peek l = Ok (EOF, 0, set_width 0 l, []).
Proof.
  intros Hend. unfold Peek, bind. rewrite (Advance_end l Hend).
  rewrite Backup_eq. unfold ret. do 3 f_equal.
  apply Lexer_ext; cbn; lia || reflexivity.
Qed.

Lemma Peek_rune l :
  0 <= pos l < Str.len (input l) -> malformed_here l = false ->
  exists r w,
    DecodeRuneInString (Str.drop (Z.to_nat (pos l)) (input l)) = (r, w) /\
    Peek l = Ok (r, w, set_width w (set_last r l), []).
Proof.
  intros Hp Hm. unfold Peek, bind.
  destruct (AdvanceP l) as [Hend | Hneg | Hr Hm' | r w Hr _ Hd Hw Hle];
    try lia; try congruence.
  exists r, w. split; [assumption |].
  rewrite Backup_eq. unfold ret. do 3 f_equal.
  apply Lexer_ext; cbn; lia || reflexivity.
Qed.

Lemma Peek_well_formed l :
  0 <= pos l -> malformed_here l = false ->
  exists r w l',
    Peek l = Ok (r, w, l', []) /\ pos l' = pos l /\ input l' = input l /\
    Peek l' = Ok (r, w, l', []).
Proof.
  intros Hp Hm.
  destruct (Z.le_gt_cases (Str.len (input l)) (pos l)) as [Hend | Hlt].
  - exists EOF, 0, (set_width 0 l). rewrite (Peek_end l Hend).
    repeat split. rewrite (Peek_end (set_width 0 l) Hend). reflexivity.
  - destruct (Peek_rune l (conj Hp Hlt) Hm) as (r & w & Hd & HP).
    set (l' := set_width w (set_last r l)) in *.
    exists r, w, l'. rewrite HP. repeat split.
    destruct (Peek_rune l' (conj Hp Hlt) Hm) as (r' & w' & Hd' & HP').
    change (input l') with (input l) in Hd'.
    change (pos l') with (pos l) in Hd'.
    rewrite Hd in Hd'. injection Hd' as <- <-. rewrite HP'.
    do 3 f_equal.
Qed.

End cursor_facts.

(** ** The claims on the cursor *)

Import utf8 lexer M_facts cursor_facts.

(** C6. At the end of the input ([pos >= len(input)]) [Advance] returns
    the rune [EOF] with width 0 and leaves [pos] where it is; the width it
    records is 0, so a [Backup] that follows at once leaves [pos]
    unchanged as well. *)
Theorem Advance_at_end_of_input (l : Lexer) :
  Str.len (input l) <= pos l ->
  exists l1,
    Advance l = Ok (EOF, 0, l1, []) /\
    pos l1 = pos l /\ width l1 = 0 /\
    exists l2, Backup l1 = Ok (tt, l2, []) /\ pos l2 = pos l.
Proof.
  intros Hend. exists (set_width 0 l). split; [now apply Advance_end |].
  repeat split. eexists. split; [apply Backup_eq |]. cbn. lia.
Qed.

Lemma Advance_at_end_of_input_witness :
  let l := mkLexer "ab" 0 2 1 98 None [] in
  Str.len (input l) <= pos l /\
  exists l1,
    Advance l = Ok (EOF, 0, l1, []) /\
    pos l1 = pos l /\ width l1 = 0 /\
    exists l2, Backup l1 = Ok (tt, l2, []) /\ pos l2 = pos l.
Proof.
  intro l. split; [vm_compute; discriminate |].
  apply (Advance_at_end_of_input l). vm_compute. discriminate.
Defined.

(** C2. Where the bytes at [pos] are a malformed encoding, [Advance]
    returns [(RuneError, 1)] and leaves [pos] unchanged; so does every
    further call: [n] calls in a row return [n] times [(RuneError, 1)] and
    [pos] has not moved. *)
Theorem Advance_malformed_repeats (l : Lexer) :
  malformed_here l = true ->
  (exists l1, Advance l = Ok (RuneError, 1, l1, []) /\ pos l1 = pos l) /\
  forall n, exists ln,
    times n Advance l = Ok (repeat (RuneError, 1) n, ln, []) /\
    pos ln = pos l /\ input ln = input l.
Proof.
  intros Hm. split.
  - eexists. split; [now apply Advance_malformed | reflexivity].
  - intros n. revert l Hm. induction n as [| n IH]; intros l Hm.
    + exists l. now repeat split.
    + set (l1 := set_width 1 (set_last RuneError l)).
      assert (Hm1 : malformed_here l1 = true) by exact Hm.
      destruct (IH l1 Hm1) as (ln & Hn & Hpos & Hin).
      exists ln. cbn [times repeat]. unfold bind at 1.
      rewrite (Advance_malformed l Hm). fold l1.
      unfold bind. rewrite Hn. cbn. now repeat split.
Qed.

Lemma Advance_malformed_repeats_witness :
  let l := mkLexer (String "a" (String "255" "b")) 0 1 1 97 None [] in
  malformed_here l = true /\
  ((exists l1, Advance l = Ok (RuneError, 1, l1, []) /\ pos l1 = pos l) /\
   forall n, exists ln,
     times n Advance l = Ok (repeat (RuneError, 1) n, ln, []) /\
     pos ln = pos l /\ input ln = input l).
Proof.
  intro l. split; [reflexivity |].
  apply (Advance_malformed_repeats l). reflexivity.
Defined.

(** C3 (what the code does). On the input "a\xff", after one [Advance],
    the cursor of a new lexer stands on a malformed byte at offset 1: the
    first [Peek] returns [(RuneError, 1)] and moves [pos] back to 0, the
    second [Peek] returns [('a', 1)]. [Peek] neither leaves [pos]
    unchanged nor repeats its result there. *)
Theorem Peek_on_malformed_moves_back (f : StateFn) :
  exists l0 l1 l2 l3,
    New (Some f) (String "a" (String "255" "")) = Ok l0 /\
    Advance l0 = Ok (97, 1, l1, []) /\ pos l1 = 1 /\
    Peek l1 = Ok (RuneError, 1, l2, []) /\ pos l2 = 0 /\
    Peek l2 = Ok (97, 1, l3, []) /\ pos l3 = 0.
Proof.
  do 4 eexists.
  split; [reflexivity |]. split; [reflexivity |]. split; [reflexivity |].
  split; [reflexivity |]. split; [reflexivity |].
  split; reflexivity.
Qed.

(** Outside the input the slice of [AcceptString] panics, whatever the
    literal. *)
Lemma AcceptString_out_of_range (l : Lexer) (s : string) :
  ~ (0 <= pos l <= Str.len (input l)) ->
  AcceptString s l = Panic "slice bounds out of range".
Proof.
  intros Hp. unfold AcceptString, bind, get, Str.from.
  destruct ((0 <=? pos l) && (pos l <=? Str.len (input l))) eqn:E;
    [| reflexivity].
  apply andb_true_iff in E as [E1 E2]. apply Z.leb_le in E1, E2. lia.
Qed.

(** C7 (as the specification words it, refuted). Not every lexer state
    lets [AcceptString] return: on the input "\xff" one [Peek] on a new
    lexer leaves [pos = -1], and there [AcceptString] panics on its slice
    for every literal, instead of returning true or false. *)
Lemma AcceptString_not_for_every_state :
  (exists f l0 l1,
     New (Some f) (String "255" "") = Ok l0 /\
     Peek l0 = Ok (RuneError, 1, l1, []) /\ pos l1 = -1 /\
     forall s, AcceptString s l1 = Panic "slice bounds out of range") /\
  ~ (forall (l : Lexer) (s : string),
       ((exists rest,
           Str.drop (Z.to_nat (pos l)) (input l) = (s ++ rest)%string) ->
        AcceptString s l = Ok (true, set_pos (pos l + Str.len s) l, [])) /\
       (~ (exists rest,
           Str.drop (Z.to_nat (pos l)) (input l) = (s ++ rest)%string) ->
        AcceptString s l = Ok (false, l, []))).
Proof.
  set (l1 := mkLexer (String "255" "") 0 (-1) 1 RuneError
                     (Some (SF (Return None))) []).
  assert (Hp : forall s, AcceptString s l1 = Panic "slice bounds out of range").
  { intros s. apply AcceptString_out_of_range. cbn. lia. }
  split.
  - exists (SF (Return None)). do 2 eexists.
    split; [reflexivity |]. split; [reflexivity |]. split; [reflexivity |].
    exact Hp.
  - intros H. destruct (H l1 "") as [H1 _].
    rewrite Hp in H1. discriminate H1. now eexists.
Qed.

(** C7 (amended). From an offset inside the input, [AcceptString s] returns true
    and adds [len(s)] to [pos] when the bytes from [pos] on start with
    [s], and returns false and changes nothing otherwise; so it is with
    "func" on the inputs "function", "func" and "fun". *)
Theorem AcceptString_spec (l : Lexer) (s : string) :
  0 <= pos l <= Str.len (input l) ->
  ((exists rest,
      Str.drop (Z.to_nat (pos l)) (input l) = (s ++ rest)%string) ->
   AcceptString s l = Ok (true, set_pos (pos l + Str.len s) l, [])) /\
  (~ (exists rest,
      Str.drop (Z.to_nat (pos l)) (input l) = (s ++ rest)%string) ->
   AcceptString s l = Ok (false, l, [])) /\
  (forall l1, input l1 = "function" -> pos l1 = 0 ->
     AcceptString "func" l1 = Ok (true, set_pos 4 l1, [])) /\
  (forall l1, input l1 = "func" -> pos l1 = 0 ->
     AcceptString "func" l1 = Ok (true, set_pos 4 l1, []) /\
     pos (set_pos 4 l1) = Str.len (input l1)) /\
  (forall l1, input l1 = "fun" -> pos l1 = 0 ->
     AcceptString "func" l1 = Ok (false, l1, [])).
Proof.
  intros Hp.
  assert (Hgen : forall l s, 0 <= pos l <= Str.len (input l) ->
    AcceptString s l =
    if Str.HasPrefix (Str.drop (Z.to_nat (pos l)) (input l)) s
    then Ok (true, set_pos (pos l + Str.len s) l, [])
    else Ok (false, l, [])).
  { clear. intros l s Hp. unfold AcceptString, bind, get, Str.from.
    replace (0 <=? pos l) with true by (symmetry; apply Z.leb_le; lia).
    replace (pos l <=? Str.len (input l)) with true
      by (symmetry; apply Z.leb_le; lia).
    cbn. now destruct (Str.HasPrefix _ s). }
  split; [| split; [| split; [| split]]].
  - intros Hpre. rewrite Hgen by assumption.
    apply Str_facts.HasPrefix_spec in Hpre. now rewrite Hpre.
  - intros Hpre. rewrite Hgen by assumption.
    destruct (Str.HasPrefix _ s) eqn:E; [| reflexivity].
    apply Str_facts.HasPrefix_spec in E. contradiction.
  - intros l1 Hi H0. rewrite Hgen by (rewrite Hi, H0; cbn; lia).
    rewrite Hi, H0. reflexivity.
  - intros l1 Hi H0. rewrite Hgen by (rewrite Hi, H0; cbn; lia).
    rewrite Hi, H0. split; reflexivity.
  - intros l1 Hi H0. rewrite Hgen by (rewrite Hi, H0; cbn; lia).
    rewrite Hi, H0. reflexivity.
Qed.

Lemma AcceptString_spec_witness :
  let l := mkLexer "a function" 0 2 1 32 None [] in
  0 <= pos l <= Str.len (input l) /\
  AcceptString "func" l = Ok (true, set_pos (pos l + Str.len "func") l, []).
Proof.
  intro l. split; [vm_compute; split; discriminate |].
  refine (proj1 (AcceptString_spec l "func" _) _).
  - vm_compute. split; discriminate.
  - exists "tion". reflexivity.
Defined.

(** C9 (as the specification words it, refuted). [EOF] is 0x04, the code
    point U+0004: it is a valid rune, and the decoder returns it for the
    byte 0x04. *)
Lemma EOF_is_a_valid_code_point :
  ~ (ValidRune EOF = false) /\
  ~ (forall s w, 0 < w -> DecodeRuneInString s <> (EOF, w)).
Proof.
  split.
  - discriminate.
  - intros H. apply (H (String "004" "") 1); [lia | reflexivity].
Qed.

(** C9 (amended). The end of the input is told by the width, not by the
    rune: from an offset that is not negative [Advance] returns, with the
    width 0 exactly when [pos >= len(input)]; the rune is then [EOF], and
    every rune read from the input comes with a width of at least 1. *)
Theorem Advance_width_zero_iff_end (l : Lexer) :
  0 <= pos l ->
  exists r w l',
    Advance l = Ok (r, w, l', []) /\
    (w = 0 <-> Str.len (input l) <= pos l) /\
    (w = 0 -> r = EOF) /\
    (pos l < Str.len (input l) -> 1 <= w <= UTFMax).
Proof.
  intros Hp.
  destruct (AdvanceP l) as [Hend | Hneg | Hr Hm | r w Hr Hm Hd Hw Hle];
    [exists EOF, 0 | lia | exists RuneError, 1 | exists r, w];
    eexists; (split; [reflexivity |]); unfold UTFMax in *;
    repeat split; intros; try reflexivity; try lia.
Qed.

Lemma Advance_width_zero_iff_end_witness :
  let l := mkLexer (String "004" "") 0 0 0 0 None [] in
  0 <= pos l /\
  exists r w l',
    Advance l = Ok (r, w, l', []) /\
    (w = 0 <-> Str.len (input l) <= pos l) /\
    (w = 0 -> r = EOF) /\
    (pos l < Str.len (input l) -> 1 <= w <= UTFMax).
Proof.
  intros l. split; [vm_compute; discriminate |].
  apply (Advance_width_zero_iff_end l). vm_compute. discriminate.
Defined.

(** C10. [AcceptString], which returns from any offset inside the input,
    changes [pos] and nothing else, whether it succeeds or not: [start],
    the recorded width and the recorded rune stay, and nothing is put in
    the queue.  A [Backup] right after it therefore takes from [pos] the
    width that was recorded before the call (0 on a new lexer), not
    [len(s)]. *)
Theorem AcceptString_frame (l : Lexer) (s : string) :
  0 <= pos l <= Str.len (input l) ->
  (exists ok l1, AcceptString s l = Ok (ok, l1, [])) /\
  forall ok l1 log,
    AcceptString s l = Ok (ok, l1, log) ->
    l1 = set_pos (if ok then pos l + Str.len s else pos l) l /\
    start l1 = start l /\ width l1 = width l /\ last l1 = last l /\
    log = [] /\
    (exists l2, Backup l1 = Ok (tt, l2, []) /\ pos l2 = pos l1 - width l) /\
    (forall f inp, New (Some f) inp = Ok l ->
       exists l2, Backup l1 = Ok (tt, l2, []) /\ pos l2 = pos l1).
Proof.
  intros Hp. unfold AcceptString, bind, get, Str.from.
  replace (0 <=? pos l) with true by (symmetry; apply Z.leb_le; lia).
  replace (pos l <=? Str.len (input l)) with true
    by (symmetry; apply Z.leb_le; lia).
  cbn. set (rest := Str.drop (Z.to_nat (pos l)) (input l)).
  assert (Hl : l = set_pos (pos l) l) by now destruct l.
  assert (Hb : forall p, exists l2,
             Backup (set_pos p l) = Ok (tt, l2, []) /\
             pos l2 = pos (set_pos p l) - width l).
  { intros p. eexists. split; [apply Backup_eq | reflexivity]. }
  assert (Hn : forall p f inp, New (Some f) inp = Ok l -> exists l2,
             Backup (set_pos p l) = Ok (tt, l2, []) /\
             pos l2 = pos (set_pos p l)).
  { intros p f inp [= <-]. eexists. split; [apply Backup_eq |]. cbn. lia. }
  destruct (Str.HasPrefix rest s); cbn;
    (split; [now do 2 eexists |]); intros ok l1 log [= <- E <-];
    [| rewrite Hl in E]; subst l1;
    do 5 (split; [reflexivity |]);
    (split; [apply Hb | apply Hn]).
Qed.

Lemma AcceptString_frame_witness :
  let l := mkLexer "if x" 0 1 1 105 None [] in
  let l1 := mkLexer "if x" 0 2 1 105 None [] in
  0 <= pos l <= Str.len (input l) /\
  AcceptString "f" l = Ok (true, l1, []) /\
  start l1 = start l /\ width l1 = width l /\ last l1 = last l /\
  exists l2, Backup l1 = Ok (tt, l2, []) /\ pos l2 = pos l1 - width l.
Proof.
  intros l l1.
  assert (Hp : 0 <= pos l <= Str.len (input l))
    by (vm_compute; split; discriminate).
  split; [exact Hp |]. split; [reflexivity |].
  destruct (proj2 (AcceptString_frame l "f" Hp) true l1 [] eq_refl)
    as (_ & Hs & Hw & Hl & _ & Hb & _).
  split; [exact Hs |]. split; [exact Hw |]. split; [exact Hl | exact Hb].
Defined.

(** ** The position invariant *)

Module invariant_facts.

Lemma cursor_inv_run_inv l :
  cursor_inv l -> malformed_here l = false -> run_inv l.
Proof. intros Hc Hm. split; [assumption | congruence]. Qed.

(** After [Advance] the rune just read lies inside the current lexeme:
    [Backup] may follow. *)
Lemma Advance_run_inv l :
  run_inv l ->
  post Advance l (fun _ l1 log =>
    run_inv l1 /\ width l1 <= pos l1 - start l1 /\
    input l1 = input l /\ log = []).
Proof.
  intros [[(H0 & H1 & H2) Hw] Hm] rw l1 log H.
  unfold run_inv, cursor_inv, offsets_ok.
  destruct (AdvanceP l) as [Hend | Hneg | Hr Hm' | r' w' Hr Hm' Hd Hw' Hle];
    try discriminate; injection H as <- <- <-.
  - cbn. change (malformed_here (set_width 0 l)) with (malformed_here l).
    repeat split; try lia. assumption.
  - specialize (Hm Hm'). cbn.
    change (malformed_here (set_width 1 (set_last RuneError l)))
      with (malformed_here l).
    repeat split; try lia.
  - cbn. unfold UTFMax in *. repeat split; try lia.
Qed.

(** The shape shared by [Accept] and [AcceptRange]: read a rune, test it,
    put it back if the test fails. *)
Lemma accept_run_inv (test : rune -> bool) l :
  run_inv l ->
  post (rw <- Advance ;;
        let ok := test (fst rw) in
        if negb ok then Backup ;; ret ok else ret ok) l
       (fun ok l' log =>
          cursor_inv l' /\ (ok = true -> run_inv l') /\
          input l' = input l /\ log = []).
Proof.
  intros Hinv. eapply post_bind; [apply Advance_run_inv, Hinv |].
  intros rw l1 log1 (Hr & Hb & Hin & ->). cbv zeta.
  destruct (test (fst rw)); cbn [negb].
  - apply post_ret. split; [apply Hr |]. split; [intros _; exact Hr |].
    split; [assumption | reflexivity].
  - intros ok l' log H. unfold bind in H. rewrite Backup_eq in H.
    injection H as <- <- <-.
    destruct Hr as [[(H0 & H1 & H2) Hw] _].
    unfold cursor_inv, offsets_ok. cbn.
    repeat split; try lia; try assumption.
Qed.

Lemma Accept_run_inv valid l :
  run_inv l ->
  post (Accept valid) l (fun ok l' log =>
    cursor_inv l' /\ (ok = true -> run_inv l') /\
    input l' = input l /\ log = []).
Proof.
  exact (accept_run_inv (fun r => 0 <=? strings.IndexRune valid r) l).
Qed.

Lemma AcceptRange_run_inv tab l :
  run_inv l ->
  post (AcceptRange tab) l (fun ok l' log =>
    cursor_inv l' /\ (ok = true -> run_inv l') /\
    input l' = input l /\ log = []).
Proof. exact (accept_run_inv (unicode.Is tab) l). Qed.

Lemma AcceptRun_loop_inv fuel valid n l :
  run_inv l ->
  post (AcceptRun_loop fuel valid n) l (fun _ l' log =>
    cursor_inv l' /\ input l' = input l /\ log = []).
Proof.
  revert n l. induction fuel as [| fuel IH]; intros n l Hinv.
  - intros k l' log H. discriminate.
  - cbn [AcceptRun_loop].
    eapply post_bind; [apply Accept_run_inv, Hinv |].
    intros ok l1 log1 (Hc & Hr & Hin & ->). destruct ok.
    + eapply post_weaken; [apply IH, Hr; reflexivity |].
      cbn. intros k l' log (Hc' & Hin' & ->).
      split; [assumption |]. split; [congruence | reflexivity].
    + apply post_ret. split; [assumption |]. split; [assumption | reflexivity].
Qed.

Lemma AcceptRunRange_loop_inv fuel tab n l :
  run_inv l ->
  post (AcceptRunRange_loop fuel tab n) l (fun _ l' log =>
    cursor_inv l' /\ input l' = input l /\ log = []).
Proof.
  revert n l. induction fuel as [| fuel IH]; intros n l Hinv.
  - intros k l' log H. discriminate.
  - cbn [AcceptRunRange_loop].
    eapply post_bind; [apply AcceptRange_run_inv, Hinv |].
    intros ok l1 log1 (Hc & Hr & Hin & ->). destruct ok.
    + eapply post_weaken; [apply IH, Hr; reflexivity |].
      cbn. intros k l' log (Hc' & Hin' & ->).
      split; [assumption |]. split; [congruence | reflexivity].
    + apply post_ret. split; [assumption |]. split; [assumption | reflexivity].
Qed.

End invariant_facts.

Module step_facts.

Import invariant_facts.

Lemma Advance_cursor_inv l :
  cursor_inv l ->
  post Advance l (fun _ l1 _ => cursor_inv l1 /\ input l1 = input l).
Proof.
  intros [(H0 & H1 & H2) Hw] rw l1 log H.
  unfold cursor_inv, offsets_ok.
  destruct (AdvanceP l) as [Hend | Hneg | Hr Hm' | r' w' Hr Hm' Hd Hw' Hle];
    try discriminate; injection H as <- <- <-; cbn;
    repeat split; lia.
Qed.

Lemma AcceptString_cursor_inv s l :
  cursor_inv l ->
  post (AcceptString s) l (fun _ l1 _ => cursor_inv l1 /\ input l1 = input l).
Proof.
  intros [(H0 & H1 & H2) Hw] ok l1 log H.
  unfold AcceptString, bind, get, Str.from in H.
  destruct ((0 <=? pos l) && (pos l <=? Str.len (input l))) eqn:Hr;
    cbn in H; [| discriminate].
  destruct (Str.HasPrefix _ s) eqn:Hp; cbn in H; injection H as <- <- <-.
  - apply Str_facts.HasPrefix_len in Hp.
    rewrite Str_facts.len_drop in Hp by (unfold Str.len in H2; lia).
    pose proof (Str_facts.len_nonneg s).
    unfold cursor_inv, offsets_ok. cbn. repeat split; lia.
  - unfold cursor_inv, offsets_ok. repeat split; lia.
Qed.

(** Every exported method keeps the invariant of the cursor, when the
    call meets [call_ok]. *)
Lemma exec_op_cursor_inv fuel A (o : op A) l :
  cursor_inv l -> call_ok (Invoke o) l = true ->
  post (exec_op fuel o) l (fun _ l' _ => cursor_inv l' /\ input l' = input l).
Proof.
  intros Hc Hok.
  destruct o; cbn [exec_op call_ok] in *.
  - (* Start *) intros a l' log [= <- <- <-]. now split.
  - (* Pos *) intros a l' log [= <- <- <-]. now split.
  - (* Current *)
    intros a l' log H. unfold Current, bind, get in H.
    destruct (Str.slice _ _ _); cbn in H; [| discriminate].
    injection H as <- <- <-. now split.
  - (* Last *) intros a l' log [= <- <- <-]. now split.
  - (* Advance *) now apply Advance_cursor_inv.
  - (* Backup *)
    intros a l' log [= <- <- <-]. apply Z.leb_le in Hok.
    destruct Hc as [(H0 & H1 & H2) Hw].
    unfold cursor_inv, offsets_ok. cbn. repeat split; lia.
  - (* Peek *)
    apply negb_true_iff in Hok.
    eapply post_bind;
      [apply Advance_run_inv, cursor_inv_run_inv; assumption |].
    intros rw l1 log1 ([[(H0 & H1 & H2) Hw] _] & Hb & Hin & ->).
    intros a l' log [= <- <- <-].
    unfold cursor_inv, offsets_ok. cbn. repeat split; lia || assumption.
  - (* Ignore *)
    intros a l' log [= <- <- <-].
    destruct Hc as [(H0 & H1 & H2) Hw].
    unfold cursor_inv, offsets_ok. cbn. repeat split; lia.
  - (* Accept *)
    apply negb_true_iff in Hok.
    eapply post_weaken;
      [apply Accept_run_inv, cursor_inv_run_inv; assumption |].
    cbn. intros ok l' log (Hc' & _ & Hin & _). now split.
  - (* AcceptRange *)
    apply negb_true_iff in Hok.
    eapply post_weaken;
      [apply AcceptRange_run_inv, cursor_inv_run_inv; assumption |].
    cbn. intros ok l' log (Hc' & _ & Hin & _). now split.
  - (* AcceptRun *)
    apply negb_true_iff in Hok.
    eapply post_weaken;
      [apply AcceptRun_loop_inv, cursor_inv_run_inv; assumption |].
    cbn. intros ok l' log (Hc' & Hin & _). now split.
  - (* AcceptRunRange *)
    apply negb_true_iff in Hok.
    eapply post_weaken;
      [apply AcceptRunRange_loop_inv, cursor_inv_run_inv; assumption |].
    cbn. intros ok l' log (Hc' & Hin & _). now split.
  - (* AcceptString *) now apply AcceptString_cursor_inv.
  - (* Errorf *) intros a l' log [= <- <- <-]. now split.
  - (* Emit *)
    intros a l' log H. unfold Emit, bind, get in H.
    destruct (Str.slice _ _ _); cbn in H; [| discriminate].
    injection H as <- <- <-.
    destruct Hc as [(H0 & H1 & H2) Hw].
    unfold cursor_inv, offsets_ok. cbn. repeat split; lia.
Qed.

Lemma reachable_cursor_inv fuel l0 l :
  cursor_inv l0 -> reachable fuel l0 l ->
  cursor_inv l /\ input l = input l0.
Proof.
  intros H0 Hr. induction Hr as [| l l' c log Hr [IHc IHi] Hok Hx].
  - now split.
  - destruct c as [A o]. unfold exec_call in Hx.
    apply bind_Ok in Hx as (a & l1 & log1 & log2 & Hx & [= <- <-] & _).
    destruct (exec_op_cursor_inv fuel A o l IHc Hok a l1 log1 Hx)
      as [Hc' Hi']. split; [assumption | congruence].
Qed.

(** Right after an [Advance] that met no malformed encoding, the call
    [Backup] meets [call_ok]. *)
Lemma Backup_ok_after_Advance l rw l1 log :
  cursor_inv l -> malformed_here l = false ->
  Advance l = Ok (rw, l1, log) ->
  call_ok (Invoke OBackup) l1 = true.
Proof.
  intros Hc Hm H.
  destruct (Advance_run_inv l (cursor_inv_run_inv l Hc Hm) rw l1 log H)
    as (_ & Hb & _).
  now apply Z.leb_le.
Qed.

End step_facts.

Import step_facts.

(** C1 (as the specification words it, refuted). On the input "a" the
    calls [Advance], [Ignore], [Backup] hold a single [Backup], which
    follows an [Advance]; they end with [start = 1] and [pos = 0]. *)
Lemma position_invariant_counterexample :
  ~ (forall fuel f inp cs l0 l log,
       New (Some f) inp = Ok l0 ->
       backup_contract true cs = true ->
       run_calls fuel cs l0 = Ok (tt, l, log) ->
       offsets_ok l).
Proof.
  intros H.
  specialize (H 0%nat (SF (Return None)) "a"
                [Invoke OAdvance; Invoke OIgnore; Invoke OBackup]
                _ _ _ eq_refl eq_refl eq_refl).
  destruct H as (_ & H & _). cbn in H. lia.
Qed.

(** C1 (amended). From a new lexer, through any sequence of calls of the
    exported methods in which every [Backup] finds the width of the last
    rune read at most [pos - start], and no [Peek], [Accept],
    [AcceptRange], [AcceptRun] or [AcceptRunRange] starts on a malformed
    encoding, every lexer reached has [0 <= start <= pos <= len(input)],
    over the input it was given. *)
Theorem position_invariant_under_contract
        (fuel : nat) (f : StateFn) (inp : string) (l0 l : Lexer) :
  New (Some f) inp = Ok l0 ->
  reachable fuel l0 l ->
  offsets_ok l /\ input l = inp.
Proof.
  intros [= <-] Hr.
  assert (H0 : cursor_inv (mkLexer inp 0 0 0 0 (Some f) [])).
  { pose proof (Str_facts.len_nonneg inp).
    unfold cursor_inv, offsets_ok. cbn. lia. }
  destruct (reachable_cursor_inv fuel _ l H0 Hr) as [[Ho _] Hi].
  split; assumption.
Qed.

Lemma position_invariant_under_contract_witness :
  let f := SF (Return None) in
  let l0 := mkLexer "ab" 0 0 0 0 (Some f) [] in
  let l := mkLexer "ab" 1 1 1 97 (Some f) [mkItem 0 0 "a"] in
  New (Some f) "ab" = Ok l0 /\
  reachable 5 l0 l /\
  (offsets_ok l /\ input l = "ab").
Proof.
  intros f l0 l.
  assert (Hr : reachable 5 l0 l).
  { pose (la := mkLexer "ab" 0 1 1 97 (Some f) []).
    pose (lb := mkLexer "ab" 0 0 1 97 (Some f) []).
    apply reach_call with (c := Invoke (OEmit 0)) (l := la)
                          (log := [mkItem 0 0 "a"]);
      [| reflexivity | reflexivity].
    apply reach_call with (c := Invoke (OAccept "a")) (l := lb) (log := []);
      [| reflexivity | reflexivity].
    apply reach_call with (c := Invoke OBackup) (l := la) (log := []);
      [| reflexivity | reflexivity].
    apply reach_call with (c := Invoke OAdvance) (l := l0) (log := []);
      [| reflexivity | reflexivity].
    apply reach_init. }
  split; [reflexivity |]. split; [exact Hr |].
  apply (position_invariant_under_contract 5 f "ab" l0 l eq_refl Hr).
Defined.

(** ** The driver *)

Module driver_facts.

Lemma appending_ret {A} (a : A) : appending (ret a).
Proof. intros l a' l' log [= <- <- <-]. split; [now rewrite app_nil_r | reflexivity]. Qed.

Lemma appending_get : appending get.
Proof. intros l a' l' log [= <- <- <-]. split; [now rewrite app_nil_r | reflexivity]. Qed.

Lemma appending_panic {A} msg : appending (@panic A msg).
Proof. intros l a' l' log H. discriminate. Qed.

Lemma appending_out_of_fuel {A} : appending (@out_of_fuel A).
Proof. intros l a' l' log H. discriminate. Qed.

Lemma appending_sliced o : appending (sliced o).
Proof. destruct o; [apply appending_ret | apply appending_panic]. Qed.

Lemma appending_modify (f : Lexer -> Lexer) :
  (forall l, items (f l) = items l /\ state (f l) = state l) ->
  appending (modify f).
Proof.
  intros Hf l a' l' log [= <- <- <-]. destruct (Hf l) as [Hi Hs].
  split; [now rewrite app_nil_r | assumption].
Qed.

Lemma appending_bind {A B} (m : M A) (f : A -> M B) :
  appending m -> (forall a, appending (f a)) -> appending (bind m f).
Proof.
  intros Hm Hf l. eapply post_bind; [apply Hm |].
  intros a l1 log1 [Hi1 Hs1] b l2 log2 H.
  destruct (Hf a l1 b l2 log2 H) as [Hi2 Hs2].
  split; [| congruence]. now rewrite Hi2, Hi1, app_assoc.
Qed.

Lemma appending_enqueue i : appending (enqueue i).
Proof.
  intros l a l' log [= <- <- <-]. split; reflexivity.
Qed.

Ltac appending_step :=
  first
    [ apply appending_enqueue
    | apply appending_sliced
    | apply appending_ret
    | apply appending_get
    | apply appending_panic
    | apply appending_out_of_fuel
    | apply appending_modify; intros ?; split; reflexivity
    | apply appending_bind; [| intros ?]
    | match goal with
      | |- appending (if ?b then _ else _) => destruct b
      | |- appending (let (_, _) := ?p in _) => destruct p
      end ].

Ltac appending_tac := repeat appending_step.

Lemma appending_Advance : appending Advance.
Proof. unfold Advance. appending_tac. Qed.

Lemma appending_Backup : appending Backup.
Proof. unfold Backup. appending_tac. Qed.

Lemma appending_Accept valid : appending (Accept valid).
Proof.
  unfold Accept. apply appending_bind; [apply appending_Advance |].
  intros rw. cbv zeta. destruct (negb _); [| apply appending_ret].
  apply appending_bind; [apply appending_Backup | intros; apply appending_ret].
Qed.

Lemma appending_AcceptRange tab : appending (AcceptRange tab).
Proof.
  unfold AcceptRange. apply appending_bind; [apply appending_Advance |].
  intros rw. cbv zeta. destruct (negb _); [| apply appending_ret].
  apply appending_bind; [apply appending_Backup | intros; apply appending_ret].
Qed.

Lemma appending_AcceptRun_loop fuel valid n :
  appending (AcceptRun_loop fuel valid n).
Proof.
  revert n. induction fuel as [| fuel IH]; intros n; cbn [AcceptRun_loop].
  - apply appending_out_of_fuel.
  - apply appending_bind; [apply appending_Accept |].
    intros [|]; [apply IH | apply appending_ret].
Qed.

Lemma appending_AcceptRunRange_loop fuel tab n :
  appending (AcceptRunRange_loop fuel tab n).
Proof.
  revert n. induction fuel as [| fuel IH]; intros n;
    cbn [AcceptRunRange_loop].
  - apply appending_out_of_fuel.
  - apply appending_bind; [apply appending_AcceptRange |].
    intros [|]; [apply IH | apply appending_ret].
Qed.

(** No exported method removes or reorders an item of the queue. *)
Lemma appending_exec_op fuel A (o : op A) : appending (exec_op fuel o).
Proof.
  destruct o; cbn [exec_op].
  - unfold Start. appending_tac.
  - unfold Pos. appending_tac.
  - unfold Current. appending_tac.
  - unfold Last. appending_tac.
  - apply appending_Advance.
  - apply appending_Backup.
  - unfold Peek. apply appending_bind; [apply appending_Advance |].
    intros rw. apply appending_bind; [apply appending_Backup |].
    intros; apply appending_ret.
  - unfold Ignore. appending_tac.
  - apply appending_Accept.
  - apply appending_AcceptRange.
  - apply appending_AcceptRun_loop.
  - apply appending_AcceptRunRange_loop.
  - unfold AcceptString. appending_tac.
  - unfold Errorf. appending_tac.
  - unfold Emit. appending_tac.
Qed.

Lemma appending_exec fuel R (p : Prog R) : appending (exec fuel p).
Proof.
  induction p as [r | A o k IH]; cbn [exec].
  - apply appending_ret.
  - apply appending_bind; [apply appending_exec_op | exact IH].
Qed.

Lemma appending_call_state fuel f : appending (call_state fuel f).
Proof. destruct f as [body]. apply appending_exec. Qed.

Lemma Next_unfold fuel l :
  Next fuel l =
  (head <- dequeue ;;
   match head with
   | Some i => ret i
   | None =>
     l <- get ;;
     match state l with
     | None => ret (mkItem ItemEOF (start l) "")
     | Some f =>
       match fuel with
       | O => out_of_fuel
       | S fuel' =>
         s' <- call_state fuel f ;;
         modify (set_state s') ;;
         Next fuel'
       end
     end
   end) l.
Proof. destruct fuel; reflexivity. Qed.

Lemma dequeue_Ok l head l1 log :
  dequeue l = Ok (head, l1, log) ->
  log = [] /\
  ((items l = [] /\ head = None /\ l1 = l) \/
   (exists i rest,
      items l = i :: rest /\ head = Some i /\ l1 = set_items rest l)).
Proof.
  unfold dequeue, get, bind.
  destruct (items l) as [| i rest] eqn:Hi; cbn;
    intros [= <- <- <-]; (split; [reflexivity |]).
  - left. now repeat split.
  - right. now exists i, rest.
Qed.

(** With an empty queue and the nil state, [Next] makes up the
    end-of-input item and leaves the lexer as it is: no state function
    runs, whatever the bound on their calls. *)
Lemma Next_terminal fuel l :
  items l = [] -> state l = None ->
  Next fuel l = Ok (eof_item l, l, []).
Proof.
  intros Hi Hs. rewrite Next_unfold. unfold dequeue, get, bind.
  rewrite ?Hi. cbn. rewrite ?Hi. cbn. rewrite Hs. reflexivity.
Qed.

Lemma times_Next_terminal fuel n l :
  items l = [] -> state l = None ->
  times n (Next fuel) l = Ok (repeat (eof_item l) n, l, []).
Proof.
  intros Hi Hs. induction n as [| n IH]; [reflexivity |].
  cbn [times repeat]. unfold bind at 1.
  rewrite (Next_terminal fuel l Hi Hs).
  unfold bind. rewrite IH. reflexivity.
Qed.

(** What one call of [Next] returns: the head of the queue as the calls
    of [enqueue] extended it, or, the queue being empty and the state nil,
    the end-of-input item. *)
Lemma Next_delivers fuel l i l' log :
  Next fuel l = Ok (i, l', log) ->
  items l ++ log = i :: items l' \/
  (items l ++ log = [] /\ items l' = [] /\ state l' = None /\
   i = eof_item l').
Proof.
  revert l i l' log. induction fuel as [| fuel IH]; intros l i l' log H;
    rewrite Next_unfold in H;
    apply bind_Ok in H as (head & l1 & log1 & log2 & Hdq & H & ->);
    apply dequeue_Ok in Hdq
      as [-> [(Hi & -> & ->) | (i1 & rest & Hi & -> & ->)]];
    cbn [app];
    try (injection H as <- <- <-; left; rewrite Hi; cbn;
         now rewrite app_nil_r);
    apply bind_Ok in H as (l2 & l3 & log3 & log4 & [= <- <- <-] & H & ->);
    cbn [app]; rewrite Hi; cbn [app];
    (destruct (state l) as [f |] eqn:Hs;
     [| injection H as <- <- <-; right; now rewrite Hi, Hs]);
    [discriminate |].
  apply bind_Ok in H as (s' & l1 & log1 & log2 & Hc & H & ->).
  apply bind_Ok in H as (u & l2 & log3 & log4 & [= <- <- <-] & Hn & ->).
  cbn [app].
  destruct (appending_call_state _ _ _ _ _ _ Hc) as [Hi1 Hs1].
  rewrite Hi in Hi1. cbn in Hi1.
  specialize (IH _ _ _ _ Hn). cbn in IH. rewrite Hi1 in IH. exact IH.
Qed.

(** The items of [n] calls of [Next]: those handed to [enqueue], oldest
    first, then end-of-input items only. *)
Lemma times_Next_fifo fuel n l toks l' log :
  times n (Next fuel) l = Ok (toks, l', log) ->
  exists delivered k,
    toks = delivered ++ repeat (eof_item l') k /\
    items l ++ log = delivered ++ items l' /\
    (k <> 0%nat -> items l' = [] /\ state l' = None).
Proof.
  revert l toks l' log. induction n as [| n IH]; intros l toks l' log.
  - intros [= <- <- <-]. exists [], 0%nat. cbn. rewrite app_nil_r.
    repeat split; congruence.
  - cbn [times]. intros H.
    apply bind_Ok in H as (i & l1 & log1 & logr & Hn & H & ->).
    apply bind_Ok in H as (rest & l2 & log2 & log3 & Ht & [= <- <- <-] & ->).
    rewrite app_nil_r.
    destruct (Next_delivers _ _ _ _ _ Hn) as [Hd | (Hd & Hi1 & Hs1 & ->)].
    + destruct (IH _ _ _ _ Ht) as (delivered & k & -> & Hq & Hk).
      exists (i :: delivered), k. split; [reflexivity |]. split; [| exact Hk].
      rewrite app_assoc, Hd. cbn. now rewrite Hq.
    + rewrite (times_Next_terminal fuel n l1 Hi1 Hs1) in Ht.
      injection Ht as <- <- <-.
      exists [], (S n). cbn. rewrite app_nil_r.
      split; [reflexivity |]. split; [now rewrite Hd, Hi1 |].
      intros _. now split.
Qed.

End driver_facts.

Import driver_facts.

(** C8. [New] panics exactly when the start state is nil; given a start
    state it returns, for any input, a lexer with [start = 0], [pos = 0],
    that input, that state as the current state, and an empty queue. *)
Theorem New_spec (start_ : option StateFn) (inp : string) :
  ((exists msg, New start_ inp = Panic msg) <-> start_ = None) /\
  (forall f, start_ = Some f ->
     exists l, New start_ inp = Ok l /\
       start l = 0 /\ pos l = 0 /\ input l = inp /\
       state l = Some f /\ items l = []).
Proof.
  split.
  - destruct start_ as [f |]; cbn; split.
    + intros [msg H]. discriminate.
    + discriminate.
    + reflexivity.
    + intros _. now eexists.
  - intros f ->. eexists. split; [reflexivity |]. now repeat split.
Qed.

(** C5. Once the queue is empty and the state is nil, every call of
    [Next] returns the end-of-input item at the current [start]: any
    number of calls return that one item, run no state function (a bound
    of 0 on their calls is enough) and leave the lexer unchanged. *)
Theorem Next_end_of_input_idempotent (fuel n : nat) (l : Lexer) :
  items l = [] -> state l = None ->
  Next 0 l = Ok (mkItem ItemEOF (start l) "", l, []) /\
  times n (Next fuel) l = Ok (repeat (mkItem ItemEOF (start l) "") n, l, []).
Proof.
  intros Hi Hs. split.
  - exact (Next_terminal 0 l Hi Hs).
  - exact (times_Next_terminal fuel n l Hi Hs).
Qed.

Lemma Next_end_of_input_idempotent_witness :
  let l := mkLexer "." 1 1 1 46 None [] in
  items l = [] /\ state l = None /\
  Next 0 l = Ok (mkItem ItemEOF 1 "", l, []) /\
  times 3 (Next 2) l = Ok (repeat (mkItem ItemEOF 1 "") 3, l, []).
Proof.
  intro l. split; [reflexivity |]. split; [reflexivity |].
  apply (Next_end_of_input_idempotent 2 3 l); reflexivity.
Defined.

(** C4. From a new lexer, the items that successive calls of [Next]
    return are the items handed to [enqueue] by [Emit] and [Errorf], in
    the order of those calls, up to the ones still in the queue; after
    them come only end-of-input items, made up once the queue is empty and
    the state is nil. *)
Theorem Next_fifo (fuel n : nat) (f : StateFn) (inp : string)
        (l0 l' : Lexer) (toks log : list Item) :
  New (Some f) inp = Ok l0 ->
  times n (Next fuel) l0 = Ok (toks, l', log) ->
  exists delivered k,
    toks = delivered ++ repeat (eof_item l') k /\
    log = delivered ++ items l' /\
    (k <> 0%nat -> items l' = [] /\ state l' = None).
Proof.
  intros [= <-] H.
  exact (times_Next_fifo fuel n _ toks l' log H).
Qed.

Lemma Next_fifo_witness :
  let f := SF (Call OAdvance (fun _ => Call (OEmit 0) (fun _ => Return None))) in
  let l0 := mkLexer "." 0 0 0 0 (Some f) [] in
  let l' := mkLexer "." 1 1 1 46 None [] in
  let toks := [mkItem 0 0 "."; mkItem ItemEOF 1 ""] in
  let log := [mkItem 0 0 "."] in
  New (Some f) "." = Ok l0 /\
  times 2 (Next 1) l0 = Ok (toks, l', log) /\
  exists delivered k,
    toks = delivered ++ repeat (eof_item l') k /\
    log = delivered ++ items l' /\
    (k <> 0%nat -> items l' = [] /\ state l' = None).
Proof.
  intros f l0 l' toks log.
  split; [reflexivity |]. split; [reflexivity |].
  apply (Next_fifo 1 2 f "." l0 l' toks log); reflexivity.
Defined.

(** ** Two runs that leave the documented behaviour *)

(** On the input "\xff" a single [Peek] from a new cursor ends with
    [pos = -1]: the reason why the position invariant asks that [Peek] and
    the [Accept] family do not start on a malformed encoding. *)
Example Peek_on_malformed_at_start :
  Peek (mkLexer (String "255" "") 0 0 0 0 None [])
  = Ok (RuneError, 1, mkLexer (String "255" "") 0 (-1) 1 RuneError None [],
        []).
Proof. vm_compute. reflexivity. Qed.

(** At the end of the input [Accept] succeeds on [EOF] when the set holds
    the byte 0x04, without moving: [AcceptRun] then never ends, whatever
    the bound on its iterations. *)
Example AcceptRun_spins_on_EOF (fuel : nat) (l : Lexer) :
  Str.len (input l) <= pos l ->
  AcceptRun fuel (String "004" "") l = OutOfFuel.
Proof.
  unfold AcceptRun. generalize 0 as n. revert l.
  induction fuel as [| fuel IH]; intros l n Hend; [reflexivity |].
  cbn [AcceptRun_loop]. unfold bind at 1, Accept, bind at 1.
  rewrite (Advance_end l Hend). cbn [fst].
  change (0 <=? strings.IndexRune (String "004" "") EOF) with true.
  cbn [negb]. unfold ret. cbn [app].
  now rewrite (IH (set_width 0 l) (n + 1) Hend).
Qed.

(** ** The scenarios of the package documentation *)

(** [AcceptRun("0123456789")] over "123abc" takes three runes. *)
Example AcceptRun_digits :
  AcceptRun 4 "0123456789" (mkLexer "123abc" 0 0 0 0 None [])
  = Ok (3, mkLexer "123abc" 0 3 1 97 None [], []).
Proof. vm_compute. reflexivity. Qed.

(** On the empty input a state function that reports the end of input with
    [Errorf] yields one error item, then end-of-input items. *)
Example Next_on_empty_input :
  let f := SF (Call OAdvance (fun cn =>
             if (fst cn =? EOF) && (snd cn =? 0)
             then Call (OErrorf "unexpected end-of-input")
                       (fun _ => Return None)
             else Call (OEmit 0) (fun _ => Return None))) in
  times 2 (Next 1) (mkLexer "" 0 0 0 0 (Some f) [])
  = Ok ([mkItem ItemError 0 "unexpected end-of-input";
         mkItem ItemEOF 0 ""],
        mkLexer "" 0 0 0 0 None [],
        [mkItem ItemError 0 "unexpected end-of-input"]).
Proof. vm_compute. reflexivity. Qed.

(** * Further properties of the cursor and of the driver *)

Module frame_facts.

Import frames utf8_facts.

(** Every rune the decoder returns is a valid code point. *)
Lemma DecodeRuneInString_valid s r w :
  DecodeRuneInString s = (r, w) -> ValidRune r = true.
Proof.
  unfold ValidRune. intros Hd.
  assert (Hgoal : 0 <= r < surrogateMin \/ surrogateMax < r <= MaxRune).
  2: { apply orb_true_iff. rewrite !andb_true_iff, !Z.leb_le, !Z.ltb_lt.
       tauto. }
  revert Hd. unfold DecodeRuneInString.
  unfold tx, t2, t3, t4, t5, rune1Max, rune2Max, rune3Max, MaxRune,
    surrogateMin, surrogateMax, RuneError.
  destruct s as [| a0 s1]; [intros [= <- <-]; lia |].
  pose proof (byte_of_range a0) as B0.
  set (c0 := Str.byte_of a0) in *. clearbody c0.
  destruct s1 as [| a1 s2];
    [split_ifs; intros [= <- <-]; bool_to_Z; lia |].
  rewrite ?rune2_arith.
  pose proof (byte_of_range a1) as B1.
  set (c1 := Str.byte_of a1) in *. clearbody c1.
  destruct s2 as [| a2 s3];
    [split_ifs; intros [= <- <-]; bool_to_Z;
     Z.to_euclidean_division_equations; lia |].
  rewrite ?rune3_arith.
  pose proof (byte_of_range a2) as B2.
  set (c2 := Str.byte_of a2) in *. clearbody c2.
  destruct s3 as [| a3 s4];
    [split_ifs; intros [= <- <-]; bool_to_Z;
     Z.to_euclidean_division_equations; lia |].
  rewrite ?rune4_arith.
  pose proof (byte_of_range a3) as B3.
  set (c3 := Str.byte_of a3) in *. clearbody c3.
  split_ifs; intros [= <- <-]; bool_to_Z;
    Z.to_euclidean_division_equations; lia.
Qed.

Lemma len_take n s :
  (n <= String.length s)%nat -> Str.len (Str.take n s) = Z.of_nat n.
Proof.
  revert s. induction n as [| n IH]; intros s Hn; [reflexivity |].
  destruct s as [| a s]; cbn [String.length] in Hn; [lia |].
  cbn [Str.take]. rewrite Str_facts.len_String, IH by lia. lia.
Qed.

Lemma drop_drop n m s : Str.drop n (Str.drop m s) = Str.drop (m + n) s.
Proof.
  revert s. induction m as [| m IH]; intros s; [reflexivity |].
  destruct s as [| a s]; cbn [Str.drop Nat.add].
  - now destruct n.
  - apply IH.
Qed.

(** *** Methods that stay silent *)

Lemma silent_ret {A} (a : A) : silent (ret a).
Proof. intros l a' l' log [= <- <- <-]. now repeat split. Qed.

Lemma silent_get : silent get.
Proof. intros l a' l' log [= <- <- <-]. now repeat split. Qed.

Lemma silent_panic {A} msg : silent (@panic A msg).
Proof. intros l a' l' log H. discriminate. Qed.

Lemma silent_out_of_fuel {A} : silent (@out_of_fuel A).
Proof. intros l a' l' log H. discriminate. Qed.

Lemma silent_sliced o : silent (sliced o).
Proof. destruct o; [apply silent_ret | apply silent_panic]. Qed.

Lemma silent_modify (f : Lexer -> Lexer) :
  (forall l, items (f l) = items l /\ state (f l) = state l /\
             input (f l) = input l) ->
  silent (modify f).
Proof.
  intros Hf l a' l' log [= <- <- <-]. destruct (Hf l) as (Hi & Hs & Hn).
  now repeat split.
Qed.

Lemma silent_bind {A B} (m : M A) (f : A -> M B) :
  silent m -> (forall a, silent (f a)) -> silent (bind m f).
Proof.
  intros Hm Hf l. eapply post_bind; [apply Hm |].
  intros a l1 log1 (-> & Hi1 & Hs1 & Hn1) b l2 log2 H.
  destruct (Hf a l1 b l2 log2 H) as (-> & Hi2 & Hs2 & Hn2).
  repeat split; congruence.
Qed.

Ltac silent_step :=
  first
    [ apply silent_sliced
    | apply silent_ret
    | apply silent_get
    | apply silent_panic
    | apply silent_out_of_fuel
    | apply silent_modify; intros ?; repeat split; reflexivity
    | apply silent_bind; [| intros ?]
    | match goal with
      | |- silent (if ?b then _ else _) => destruct b
      | |- silent (let (_, _) := ?p in _) => destruct p
      end ].

Ltac silent_tac := repeat silent_step.

Lemma silent_Advance : silent Advance.
Proof. unfold Advance. silent_tac. Qed.

Lemma silent_Backup : silent Backup.
Proof. unfold Backup. silent_tac. Qed.

Lemma silent_Peek : silent Peek.
Proof.
  unfold Peek. apply silent_bind; [apply silent_Advance | intros rw].
  apply silent_bind; [apply silent_Backup | intros; apply silent_ret].
Qed.

Lemma silent_accept (test : rune -> bool) :
  silent (rw <- Advance ;;
          let ok := test (fst rw) in
          if negb ok then Backup ;; ret ok else ret ok).
Proof.
  apply silent_bind; [apply silent_Advance | intros rw]. cbv zeta.
  destruct (negb _); [| apply silent_ret].
  apply silent_bind; [apply silent_Backup | intros; apply silent_ret].
Qed.

Lemma silent_AcceptRun_loop fuel valid n : silent (AcceptRun_loop fuel valid n).
Proof.
  revert n. induction fuel as [| fuel IH]; intros n; cbn [AcceptRun_loop].
  - apply silent_out_of_fuel.
  - apply silent_bind;
      [exact (silent_accept (fun r => 0 <=? strings.IndexRune valid r)) |].
    intros [|]; [apply IH | apply silent_ret].
Qed.

Lemma silent_AcceptRunRange_loop fuel tab n :
  silent (AcceptRunRange_loop fuel tab n).
Proof.
  revert n. induction fuel as [| fuel IH]; intros n;
    cbn [AcceptRunRange_loop].
  - apply silent_out_of_fuel.
  - apply silent_bind; [exact (silent_accept (unicode.Is tab)) |].
    intros [|]; [apply IH | apply silent_ret].
Qed.

(** *** Methods that leave [start] *)

Lemma keeps_start_ret {A} (a : A) : keeps_start (ret a).
Proof. intros l a' l' log [= <- <- <-]. reflexivity. Qed.

Lemma keeps_start_get : keeps_start get.
Proof. intros l a' l' log [= <- <- <-]. reflexivity. Qed.

Lemma keeps_start_panic {A} msg : keeps_start (@panic A msg).
Proof. intros l a' l' log H. discriminate. Qed.

Lemma keeps_start_out_of_fuel {A} : keeps_start (@out_of_fuel A).
Proof. intros l a' l' log H. discriminate. Qed.

Lemma keeps_start_sliced o : keeps_start (sliced o).
Proof. destruct o; [apply keeps_start_ret | apply keeps_start_panic]. Qed.

Lemma keeps_start_modify (f : Lexer -> Lexer) :
  (forall l, start (f l) = start l) -> keeps_start (modify f).
Proof. intros Hf l a' l' log [= <- <- <-]. apply Hf. Qed.

Lemma keeps_start_bind {A B} (m : M A) (f : A -> M B) :
  keeps_start m -> (forall a, keeps_start (f a)) -> keeps_start (bind m f).
Proof.
  intros Hm Hf l. eapply post_bind; [apply Hm |].
  intros a l1 log1 H1 b l2 log2 H. rewrite (Hf a l1 b l2 log2 H). exact H1.
Qed.

Ltac keeps_start_step :=
  first
    [ apply keeps_start_sliced
    | apply keeps_start_ret
    | apply keeps_start_get
    | apply keeps_start_panic
    | apply keeps_start_out_of_fuel
    | apply keeps_start_modify; intros ?; reflexivity
    | apply keeps_start_bind; [| intros ?]
    | match goal with
      | |- keeps_start (if ?b then _ else _) => destruct b
      | |- keeps_start (let (_, _) := ?p in _) => destruct p
      end ].

Ltac keeps_start_tac := repeat keeps_start_step.

Lemma keeps_start_Advance : keeps_start Advance.
Proof. unfold Advance. keeps_start_tac. Qed.

Lemma keeps_start_Backup : keeps_start Backup.
Proof. unfold Backup. keeps_start_tac. Qed.

Lemma keeps_start_accept (test : rune -> bool) :
  keeps_start (rw <- Advance ;;
               let ok := test (fst rw) in
               if negb ok then Backup ;; ret ok else ret ok).
Proof.
  apply keeps_start_bind; [apply keeps_start_Advance | intros rw]. cbv zeta.
  destruct (negb _); [| apply keeps_start_ret].
  apply keeps_start_bind;
    [apply keeps_start_Backup | intros; apply keeps_start_ret].
Qed.

Lemma keeps_start_AcceptRun_loop fuel valid n :
  keeps_start (AcceptRun_loop fuel valid n).
Proof.
  revert n. induction fuel as [| fuel IH]; intros n; cbn [AcceptRun_loop].
  - apply keeps_start_out_of_fuel.
  - apply keeps_start_bind;
      [exact (keeps_start_accept (fun r => 0 <=? strings.IndexRune valid r)) |].
    intros [|]; [apply IH | apply keeps_start_ret].
Qed.

Lemma keeps_start_AcceptRunRange_loop fuel tab n :
  keeps_start (AcceptRunRange_loop fuel tab n).
Proof.
  revert n. induction fuel as [| fuel IH]; intros n;
    cbn [AcceptRunRange_loop].
  - apply keeps_start_out_of_fuel.
  - apply keeps_start_bind; [exact (keeps_start_accept (unicode.Is tab)) |].
    intros [|]; [apply IH | apply keeps_start_ret].
Qed.

(** The frame of every exported method. *)
Lemma exec_op_frame (fuel : nat) (A : Type) (o : op A) (l l' : Lexer)
      (a : A) (log : list Item) :
  exec_op fuel o l = Ok (a, l', log) ->
  input l' = input l /\ state l' = state l /\
  items l' = items l ++ log /\ op_frame o l l' log.
Proof.
  intros H.
  assert (Hsilent : forall (m : M A),
            silent m -> keeps_start m -> m l = Ok (a, l', log) ->
            input l' = input l /\ state l' = state l /\
            items l' = items l ++ log /\ log = [] /\ start l' = start l).
  { intros m Hs Hk Hm. destruct (Hs l a l' log Hm) as (-> & Hi & Hst & Hn).
    rewrite app_nil_r. repeat split; try assumption.
    exact (Hk l a l' [] Hm). }
  destruct o; cbn [exec_op op_frame] in *;
    try (match goal with
         | H : ?m l = Ok _ |- _ =>
           assert (Hs : silent m /\ keeps_start m);
           [ split | destruct Hs as [Hs Hk];
                     destruct (Hsilent m Hs Hk H) as (? & ? & ? & ? & ?);
                     now repeat split ]
         end).
  - unfold Start. silent_tac.
  - unfold Start. keeps_start_tac.
  - unfold Pos. silent_tac.
  - unfold Pos. keeps_start_tac.
  - unfold Current. silent_tac.
  - unfold Current. keeps_start_tac.
  - unfold Last. silent_tac.
  - unfold Last. keeps_start_tac.
  - apply silent_Advance.
  - apply keeps_start_Advance.
  - apply silent_Backup.
  - apply keeps_start_Backup.
  - apply silent_Peek.
  - unfold Peek. apply keeps_start_bind; [apply keeps_start_Advance |].
    intros rw. apply keeps_start_bind; [apply keeps_start_Backup |].
    intros; apply keeps_start_ret.
  - (* Ignore *)
    injection H as <- <- <-. rewrite app_nil_r. now repeat split.
  - exact (silent_accept (fun r => 0 <=? strings.IndexRune valid r)).
  - exact (keeps_start_accept (fun r => 0 <=? strings.IndexRune valid r)).
  - exact (silent_accept (unicode.Is tab)).
  - exact (keeps_start_accept (unicode.Is tab)).
  - apply silent_AcceptRun_loop.
  - apply keeps_start_AcceptRun_loop.
  - apply silent_AcceptRunRange_loop.
  - apply keeps_start_AcceptRunRange_loop.
  - unfold AcceptString. silent_tac.
  - unfold AcceptString. keeps_start_tac.
  - (* Errorf *)
    injection H as <- <- <-. now repeat split.
  - (* Emit *)
    unfold Emit, bind, get in H.
    destruct (Str.slice (input l) (start l) (pos l)) as [v |] eqn:Hv;
      cbn in H; [| discriminate].
    injection H as <- <- <-. repeat split. now exists v.
Qed.

Lemma within_input_ext l l' :
  input l' = input l -> start l' = start l -> pos l' = pos l ->
  width l' = width l -> within_input l -> within_input l'.
Proof. unfold within_input. intros -> -> -> ->. tauto. Qed.

Lemma Advance_within : keeps_within Advance.
Proof.
  intros l (Hp & Hs & Hw) rw l1 log H. unfold within_input, UTFMax in *.
  destruct (AdvanceP l) as [Hend | Hneg | Hr Hm' | r' w' Hr Hm' Hd Hw' Hle];
    try discriminate; injection H as <- <- <-; cbn; unfold UTFMax in *;
    lia.
Qed.

Lemma Backup_within : keeps_within Backup.
Proof.
  intros l (Hp & Hs & Hw) u l1 log [= <- <- <-].
  unfold within_input in *. cbn. lia.
Qed.

Lemma keeps_within_bind {A B} (m : M A) (f : A -> M B) :
  keeps_within m -> (forall a, keeps_within (f a)) ->
  keeps_within (bind m f).
Proof.
  intros Hm Hf l Hl. eapply post_bind; [apply Hm, Hl |].
  intros a l1 log1 H1 b l2 log2 H. exact (Hf a l1 H1 b l2 log2 H).
Qed.

Lemma keeps_within_ret {A} (a : A) : keeps_within (ret a).
Proof. intros l Hl a' l' log [= <- <- <-]. exact Hl. Qed.

Lemma accept_within (test : rune -> bool) :
  keeps_within (rw <- Advance ;;
                let ok := test (fst rw) in
                if negb ok then Backup ;; ret ok else ret ok).
Proof.
  apply keeps_within_bind; [apply Advance_within | intros rw]. cbv zeta.
  destruct (negb _); [| apply keeps_within_ret].
  apply keeps_within_bind;
    [apply Backup_within | intros; apply keeps_within_ret].
Qed.

Lemma AcceptRun_loop_within fuel valid n :
  keeps_within (AcceptRun_loop fuel valid n).
Proof.
  revert n. induction fuel as [| fuel IH]; intros n; cbn [AcceptRun_loop].
  - intros l Hl a l' log H. discriminate.
  - apply keeps_within_bind;
      [exact (accept_within (fun r => 0 <=? strings.IndexRune valid r)) |].
    intros [|]; [apply IH | apply keeps_within_ret].
Qed.

Lemma AcceptRunRange_loop_within fuel tab n :
  keeps_within (AcceptRunRange_loop fuel tab n).
Proof.
  revert n. induction fuel as [| fuel IH]; intros n;
    cbn [AcceptRunRange_loop].
  - intros l Hl a l' log H. discriminate.
  - apply keeps_within_bind; [exact (accept_within (unicode.Is tab)) |].
    intros [|]; [apply IH | apply keeps_within_ret].
Qed.

Lemma AcceptString_within s : keeps_within (AcceptString s).
Proof.
  intros l (Hp & Hs & Hw) ok l1 log H.
  unfold AcceptString, bind, get, Str.from in H.
  destruct ((0 <=? pos l) && (pos l <=? Str.len (input l))) eqn:Hr;
    cbn in H; [| discriminate].
  apply andb_true_iff in Hr as [H0 _]. apply Z.leb_le in H0.
  destruct (Str.HasPrefix _ s) eqn:Hpre; cbn in H; injection H as <- <- <-.
  - apply Str_facts.HasPrefix_len in Hpre.
    rewrite Str_facts.len_drop in Hpre by (unfold Str.len in Hp; lia).
    unfold within_input. cbn. lia.
  - now repeat split.
Qed.

(** No exported method takes the cursor past the end of the input. *)
Lemma exec_op_within fuel A (o : op A) : keeps_within (exec_op fuel o).
Proof.
  destruct o; cbn [exec_op].
  - intros l Hl a l' log [= <- <- <-]. exact Hl.
  - intros l Hl a l' log [= <- <- <-]. exact Hl.
  - intros l Hl a l' log H. unfold Current, bind, get in H.
    destruct (Str.slice _ _ _); cbn in H; [| discriminate].
    injection H as <- <- <-. exact Hl.
  - intros l Hl a l' log [= <- <- <-]. exact Hl.
  - apply Advance_within.
  - apply Backup_within.
  - unfold Peek. apply keeps_within_bind; [apply Advance_within |].
    intros rw. apply keeps_within_bind; [apply Backup_within |].
    intros; apply keeps_within_ret.
  - intros l (Hp & Hs & Hw) a l' log [= <- <- <-].
    unfold within_input. cbn. lia.
  - exact (accept_within (fun r => 0 <=? strings.IndexRune valid r)).
  - exact (accept_within (unicode.Is tab)).
  - apply AcceptRun_loop_within.
  - apply AcceptRunRange_loop_within.
  - apply AcceptString_within.
  - intros l Hl a l' log [= <- <- <-]. exact Hl.
  - intros l (Hp & Hs & Hw) a l' log H. unfold Emit, bind, get in H.
    destruct (Str.slice _ _ _); cbn in H; [| discriminate].
    injection H as <- <- <-. unfold within_input. cbn. lia.
Qed.

Lemma run_calls_within fuel cs l l' log :
  within_input l -> run_calls fuel cs l = Ok (tt, l', log) ->
  within_input l' /\ input l' = input l.
Proof.
  revert l log. induction cs as [| [A o] cs IH]; intros l log Hl H.
  - injection H as <- <-. now split.
  - cbn [run_calls] in H. unfold exec_call in H.
    apply bind_Ok in H as (u & l1 & log1 & log2 & H1 & H2 & ->).
    apply bind_Ok in H1 as (a & l2 & log3 & log4 & H1 & [= <- <-] & ->).
    pose proof (exec_op_within fuel A o l Hl a l2 log3 H1) as Hl2.
    destruct (exec_op_frame fuel A o l l2 a log3 H1) as (Hin & _).
    destruct (IH l2 log2 Hl2 H2) as [Hw Hi]. split; [assumption | congruence].
Qed.

(** *** How far one call can take [pos] back *)

Lemma Advance_not_back l : post Advance l (fun _ l' _ => pos l <= pos l').
Proof.
  intros rw l1 log H. unfold UTFMax in *.
  destruct (AdvanceP l) as [Hend | Hneg | Hr Hm' | r' w' Hr Hm' Hd Hw' Hle];
    try discriminate; injection H as <- <- <-; cbn; lia.
Qed.

Lemma accept_lower (test : rune -> bool) l :
  within_input l ->
  post (rw <- Advance ;;
        let ok := test (fst rw) in
        if negb ok then Backup ;; ret ok else ret ok) l
       (fun ok l' _ =>
          if ok then pos l <= pos l' else pos l - UTFMax <= pos l').
Proof.
  intros Hl ok l' log H.
  apply bind_Ok in H as (rw & la & log1 & log2 & Ha & H & _).
  pose proof (Advance_not_back l rw la log1 Ha) as Hpos.
  destruct (Advance_within l Hl rw la log1 Ha) as (_ & _ & Hw).
  cbv zeta in H. destruct (test (fst rw)); cbn [negb] in H.
  - injection H as <- <- _. exact Hpos.
  - unfold bind in H. rewrite Backup_eq in H. injection H as <- <- _.
    cbn beta in Hpos. unfold UTFMax in *. cbn. lia.
Qed.

Lemma AcceptRun_loop_lower fuel valid n l :
  within_input l ->
  post (AcceptRun_loop fuel valid n) l
       (fun _ l' _ => pos l - UTFMax <= pos l').
Proof.
  revert n l. induction fuel as [| fuel IH]; intros n l Hl k l' log H;
    [discriminate |].
  cbn [AcceptRun_loop] in H.
  apply bind_Ok in H as (ok & l1 & log1 & log2 & Ha & H & _).
  pose proof (accept_lower (fun r => 0 <=? strings.IndexRune valid r)
                l Hl ok l1 log1 Ha) as Hpos.
  pose proof (accept_within (fun r => 0 <=? strings.IndexRune valid r)
                l Hl ok l1 log1 Ha) as Hl1.
  cbn beta in Hpos, Hl1. destruct ok.
  - pose proof (IH (n + 1) l1 Hl1 k l' log2 H) as Hk. cbn beta in Hk.
    unfold UTFMax in *. lia.
  - injection H as _ <- _. exact Hpos.
Qed.

Lemma AcceptRunRange_loop_lower fuel tab n l :
  within_input l ->
  post (AcceptRunRange_loop fuel tab n) l
       (fun _ l' _ => pos l - UTFMax <= pos l').
Proof.
  revert n l. induction fuel as [| fuel IH]; intros n l Hl k l' log H;
    [discriminate |].
  cbn [AcceptRunRange_loop] in H.
  apply bind_Ok in H as (ok & l1 & log1 & log2 & Ha & H & _).
  pose proof (accept_lower (unicode.Is tab) l Hl ok l1 log1 Ha) as Hpos.
  pose proof (accept_within (unicode.Is tab) l Hl ok l1 log1 Ha) as Hl1.
  cbn beta in Hpos, Hl1. destruct ok.
  - pose proof (IH (n + 1) l1 Hl1 k l' log2 H) as Hk. cbn beta in Hk.
    unfold UTFMax in *. lia.
  - injection H as _ <- _. exact Hpos.
Qed.

(** One call of an exported method lowers [pos] by the width of one rune
    at most: each of them calls [Backup] once at most. *)
Lemma exec_op_lower fuel A (o : op A) l :
  within_input l ->
  post (exec_op fuel o) l (fun _ l' _ => pos l - UTFMax <= pos l').
Proof.
  intros Hl. pose proof Hl as (_ & _ & Hw). unfold UTFMax in Hw.
  destruct o; cbn [exec_op].
  - intros a l' log [= <- <- <-]. unfold UTFMax. lia.
  - intros a l' log [= <- <- <-]. unfold UTFMax. lia.
  - intros a l' log H. unfold Current, bind, get in H.
    destruct (Str.slice _ _ _); cbn in H; [| discriminate].
    injection H as <- <- <-. unfold UTFMax. lia.
  - intros a l' log [= <- <- <-]. unfold UTFMax. lia.
  - intros a l' log H. pose proof (Advance_not_back l a l' log H) as Hp.
    cbn beta in Hp. unfold UTFMax. lia.
  - intros a l' log [= <- <- <-]. unfold UTFMax. cbn. lia.
  - intros a l' log H. unfold Peek in H.
    apply bind_Ok in H as (rw & la & log1 & log2 & Ha & H & _).
    pose proof (Advance_not_back l rw la log1 Ha) as Hp.
    destruct (Advance_within l Hl rw la log1 Ha) as (_ & _ & Hwa).
    unfold bind in H. rewrite Backup_eq in H. injection H as _ <- _.
    cbn beta in Hp. cbn. lia.
  - intros a l' log [= <- <- <-]. unfold UTFMax. cbn. lia.
  - intros a l' log H.
    pose proof (accept_lower (fun r => 0 <=? strings.IndexRune valid r)
                  l Hl a l' log H) as Hp.
    cbn beta in Hp. unfold UTFMax in *. destruct a; lia.
  - intros a l' log H.
    pose proof (accept_lower (unicode.Is tab) l Hl a l' log H) as Hp.
    cbn beta in Hp. unfold UTFMax in *. destruct a; lia.
  - apply AcceptRun_loop_lower, Hl.
  - apply AcceptRunRange_loop_lower, Hl.
  - intros a l' log H. unfold AcceptString, bind, get in H.
    destruct (Str.from _ _); cbn in H; [| discriminate].
    pose proof (Str_facts.len_nonneg s).
    destruct (Str.HasPrefix _ s); cbn in H; injection H as <- <- <-;
      unfold UTFMax; cbn; lia.
  - intros a l' log [= <- <- <-]. unfold UTFMax. cbn. lia.
  - intros a l' log H. unfold Emit, bind, get in H.
    destruct (Str.slice _ _ _); cbn in H; [| discriminate].
    injection H as <- <- <-. unfold UTFMax. cbn. lia.
Qed.

Lemma run_calls_lower fuel cs l l' log :
  within_input l -> run_calls fuel cs l = Ok (tt, l', log) ->
  Z.min (start l) (pos l) - UTFMax * Z.of_nat (List.length cs)
  <= Z.min (start l') (pos l').
Proof.
  revert l log. induction cs as [| [A o] cs IH]; intros l log Hl H.
  - injection H as <- <-. cbn. lia.
  - cbn [run_calls] in H. unfold exec_call in H.
    apply bind_Ok in H as (u & l1 & log1 & log2 & H1 & H2 & ->).
    apply bind_Ok in H1 as (a & l2 & log3 & log4 & H1 & [= <- <-] & ->).
    pose proof (exec_op_within fuel A o l Hl a l2 log3 H1) as Hl2.
    pose proof (exec_op_lower fuel A o l Hl a l2 log3 H1) as Hp.
    destruct (exec_op_frame fuel A o l l2 a log3 H1) as (_ & _ & _ & Hf).
    specialize (IH l2 log2 Hl2 H2). cbn beta in Hp, Hl2.
    assert (Hs : start l2 = start l \/ start l2 = pos l).
    { destruct o; cbn [op_frame] in Hf;
        try (destruct Hf as [_ ->]; tauto).
      destruct Hf as (v & _ & _ & ->). tauto. }
    cbn [List.length]. unfold UTFMax in *. lia.
Qed.

(** Along calls that meet [call_ok], [start] does not go back. *)
Lemma reachable_start fuel l1 l2 :
  cursor_inv l1 -> reachable fuel l1 l2 -> start l1 <= start l2.
Proof.
  intros Hc Hr. induction Hr as [| l l' c log Hr IH Hok Hx]; [lia |].
  destruct (reachable_cursor_inv fuel l1 l Hc Hr) as [[(H0 & H1 & H2) _] _].
  destruct c as [A o]. unfold exec_call in Hx.
  apply bind_Ok in Hx as (a & l3 & log1 & log2 & Hx & [= <- <-] & _).
  destruct (exec_op_frame fuel A o l l3 a log1 Hx) as (_ & _ & _ & Hf).
  destruct o; cbn [op_frame] in Hf;
    try (destruct Hf as [_ ->]; lia).
  destruct Hf as (v & _ & _ & ->). lia.
Qed.

End frame_facts.

Import frames frame_facts.

(** X1. No exported method touches the input or the current state; none
    takes an item out of the queue; only [Emit] and [Errorf] put one in,
    a single item placed at the back whose position is [start] as it was
    before the call; and only [Ignore] and [Emit] move [start], to [pos]. *)
Theorem methods_frame (fuel : nat) (A : Type) (o : op A) (l l' : Lexer)
        (a : A) (log : list Item) :
  exec_op fuel o l = Ok (a, l', log) ->
  input l' = input l /\ state l' = state l /\
  items l' = items l ++ log /\ op_frame o l l' log.
Proof. apply exec_op_frame. Qed.

Lemma methods_frame_witness :
  let l := mkLexer "ab" 0 1 1 97 None [] in
  let i := mkItem 7 0 "a" in
  let l' := mkLexer "ab" 1 1 1 97 None [i] in
  exec_op 0 (OEmit 7) l = Ok (tt, l', [i]) /\
  (input l' = input l /\ state l' = state l /\
   items l' = items l ++ [i] /\ op_frame (OEmit 7) l l' [i]).
Proof.
  intros l i l'. split; [reflexivity |].
  apply (methods_frame 0 unit (OEmit 7) l l' tt [i]). reflexivity.
Defined.

(** X2. In a run of [n] calls of exported methods on a new lexer, in any
    order and with no contract on [Backup], where [4 * n] is at most
    [MaxInt32] so that no offset can leave the range of [int], the cursor
    never passes the end of the input: [pos] and [start] are at most
    [len(input)]; they can only fall below 0, by four bytes at most for
    each call; the recorded width stays between 0 and 4, and the input is
    the one given to [New]. *)
Theorem cursor_never_past_end (fuel : nat) (f : StateFn) (inp : string)
        (cs : list call) (l0 l : Lexer) (log : list Item) :
  UTFMax * Z.of_nat (List.length cs) <= MaxInt32 ->
  New (Some f) inp = Ok l0 ->
  run_calls fuel cs l0 = Ok (tt, l, log) ->
  - (UTFMax * Z.of_nat (List.length cs)) <= pos l <= Str.len inp /\
  - (UTFMax * Z.of_nat (List.length cs)) <= start l <= Str.len inp /\
  - MaxInt32 <= pos l /\ - MaxInt32 <= start l /\
  0 <= width l <= UTFMax /\ input l = inp.
Proof.
  intros Hn [= <-] H.
  assert (H0 : within_input (mkLexer inp 0 0 0 0 (Some f) [])).
  { pose proof (Str_facts.len_nonneg inp).
    unfold within_input, UTFMax. cbn. lia. }
  destruct (run_calls_within fuel cs _ l log H0 H) as [(Hp & Hs & Hw) Hi].
  pose proof (run_calls_lower fuel cs _ l log H0 H) as Hlow.
  cbn [start pos input] in Hi, Hlow. rewrite Hi in Hp, Hs.
  unfold UTFMax, MaxInt32 in *. repeat split; assumption || lia.
Qed.

Lemma cursor_never_past_end_witness :
  let f := SF (Return None) in
  let l0 := mkLexer (String "255" "") 0 0 0 0 (Some f) [] in
  let l := mkLexer (String "255" "") 0 (-2) 1 RuneError (Some f) [] in
  let cs := [Invoke OPeek; Invoke OBackup] in
  UTFMax * Z.of_nat (List.length cs) <= MaxInt32 /\
  New (Some f) (String "255" "") = Ok l0 /\
  run_calls 0 cs l0 = Ok (tt, l, []) /\
  (- (UTFMax * Z.of_nat (List.length cs)) <= pos l
   <= Str.len (String "255" "") /\
   - (UTFMax * Z.of_nat (List.length cs)) <= start l
   <= Str.len (String "255" "") /\
   - MaxInt32 <= pos l /\ - MaxInt32 <= start l /\
   0 <= width l <= UTFMax /\ input l = String "255" "").
Proof.
  intros f l0 l cs.
  assert (Hn : UTFMax * Z.of_nat (List.length cs) <= MaxInt32)
    by (vm_compute; discriminate).
  split; [exact Hn |]. split; [reflexivity |]. split; [reflexivity |].
  apply (cursor_never_past_end 0 f (String "255" "") cs l0 l [] Hn);
    reflexivity.
Defined.

(** X3. Along calls that meet the contract of the position invariant,
    [start] never goes back: between any two lexers of such a run from a
    new lexer, the later [start] is at least the earlier one, so the
    positions given to the items do not decrease. *)
Theorem start_never_goes_back (fuel : nat) (f : StateFn) (inp : string)
        (l0 l1 l2 : Lexer) :
  New (Some f) inp = Ok l0 ->
  reachable fuel l0 l1 ->
  reachable fuel l1 l2 ->
  start l1 <= start l2.
Proof.
  intros [= <-] H1 H2.
  assert (H0 : cursor_inv (mkLexer inp 0 0 0 0 (Some f) [])).
  { pose proof (Str_facts.len_nonneg inp).
    unfold cursor_inv, offsets_ok. cbn. lia. }
  destruct (reachable_cursor_inv fuel _ l1 H0 H1) as [Hc _].
  exact (reachable_start fuel l1 l2 Hc H2).
Qed.

Lemma start_never_goes_back_witness :
  let f := SF (Return None) in
  let l0 := mkLexer "ab" 0 0 0 0 (Some f) [] in
  let l1 := mkLexer "ab" 0 1 1 97 (Some f) [] in
  let l2 := mkLexer "ab" 1 1 1 97 (Some f) [] in
  New (Some f) "ab" = Ok l0 /\
  reachable 0 l0 l1 /\ reachable 0 l1 l2 /\
  start l1 <= start l2.
Proof.
  intros f l0 l1 l2.
  assert (H1 : reachable 0 l0 l1).
  { apply reach_call with (c := Invoke OAdvance) (l := l0) (log := []);
      [apply reach_init | reflexivity | reflexivity]. }
  assert (H2 : reachable 0 l1 l2).
  { apply reach_call with (c := Invoke OIgnore) (l := l1) (log := []);
      [apply reach_init | reflexivity | reflexivity]. }
  split; [reflexivity |]. split; [exact H1 |]. split; [exact H2 |].
  apply (start_never_goes_back 0 f "ab" l0 l1 l2 eq_refl H1 H2).
Defined.

(** ** The current lexeme *)

Module lexeme_facts.

Lemma offsets_ok_dec l : {offsets_ok l} + {~ offsets_ok l}.
Proof.
  unfold offsets_ok.
  destruct (Z_le_dec 0 (start l)); [| right; tauto].
  destruct (Z_le_dec (start l) (pos l)); [| right; tauto].
  destruct (Z_le_dec (pos l) (Str.len (input l))); [| right; tauto].
  left. tauto.
Qed.

Lemma slice_ok s i j :
  0 <= i -> i <= j -> j <= Str.len s ->
  exists v, Str.slice s i j = Some v /\ Str.len v = j - i /\
    Str.drop (Z.to_nat i) s = (v ++ Str.drop (Z.to_nat j) s)%string.
Proof.
  intros Hi Hij Hj. unfold Str.slice.
  replace (0 <=? i) with true by (symmetry; apply Z.leb_le; lia).
  replace (i <=? j) with true by (symmetry; apply Z.leb_le; lia).
  replace (j <=? Str.len s) with true by (symmetry; apply Z.leb_le; lia).
  cbn [andb]. eexists. split; [reflexivity |].
  assert (Hd : Str.len (Str.drop (Z.to_nat i) s) = Str.len s - i).
  { rewrite Str_facts.len_drop by (unfold Str.len in Hj; lia). lia. }
  split.
  - rewrite len_take; [lia |]. unfold Str.len in Hd, Hj. lia.
  - rewrite (Str_facts.take_drop (Z.to_nat (j - i))
               (Str.drop (Z.to_nat i) s)) at 1.
    rewrite drop_drop. do 2 f_equal. lia.
Qed.

Lemma slice_out_of_range s i j :
  ~ (0 <= i /\ i <= j /\ j <= Str.len s) -> Str.slice s i j = None.
Proof.
  intros Hn. unfold Str.slice.
  destruct ((0 <=? i) && (i <=? j) && (j <=? Str.len s)) eqn:E;
    [| reflexivity].
  rewrite !andb_true_iff, !Z.leb_le in E. tauto.
Qed.

Lemma slice_empty s i :
  0 <= i <= Str.len s -> Str.slice s i i = Some "".
Proof.
  intros Hi. destruct (slice_ok s i i) as (v & Hv & Hl & _); try lia.
  rewrite Hv. f_equal. destruct v as [| a v]; [reflexivity |].
  rewrite Str_facts.len_String in Hl.
  pose proof (Str_facts.len_nonneg v). lia.
Qed.

End lexeme_facts.

Import lexeme_facts.

(** X4. [Current] returns exactly when [0 <= start <= pos <= len(input)]:
    the lexeme then has [pos - start] bytes and the input from [start] on
    is the lexeme followed by the input from [pos] on, and the lexer is
    unchanged.  With any other offsets [Current] panics on its slice, and
    so does [Emit], whatever the item type. *)
Theorem Current_bounds (l : Lexer) :
  (offsets_ok l /\
   exists v, Current l = Ok (v, l, []) /\
     Str.len v = pos l - start l /\
     Str.drop (Z.to_nat (start l)) (input l)
     = (v ++ Str.drop (Z.to_nat (pos l)) (input l))%string) \/
  (~ offsets_ok l /\
   Current l = Panic "slice bounds out of range" /\
   forall t, Emit t l = Panic "slice bounds out of range").
Proof.
  destruct (offsets_ok_dec l) as [Hok | Hno].
  - left. split; [assumption |]. destruct Hok as (H0 & H1 & H2).
    destruct (slice_ok (input l) (start l) (pos l) H0 H1 H2)
      as (v & Hv & Hl & Hd).
    exists v. unfold Current, bind, get. rewrite Hv. now repeat split.
  - right. split; [assumption |].
    pose proof (slice_out_of_range (input l) (start l) (pos l) Hno) as Hs.
    split; [| intros t]; unfold Current, Emit, bind, get; now rewrite Hs.
Qed.

(** X5. With [0 <= start <= pos <= len(input)], [Emit t] returns: it puts
    at the back of the queue the one item of type [t], position [start]
    and value the current lexeme (what [Current] returns), moves [start]
    to [pos] and leaves [pos]; the lexeme that follows is empty. *)
Theorem Emit_spec (t : ItemType) (l : Lexer) :
  offsets_ok l ->
  exists v l',
    Current l = Ok (v, l, []) /\
    Emit t l = Ok (tt, l', [mkItem t (start l) v]) /\
    l' = set_start (pos l) (set_items (items l ++ [mkItem t (start l) v]) l) /\
    Current l' = Ok ("", l', []).
Proof.
  intros (H0 & H1 & H2).
  destruct (slice_ok (input l) (start l) (pos l) H0 H1 H2)
    as (v & Hv & _ & _).
  exists v, (set_start (pos l)
               (set_items (items l ++ [mkItem t (start l) v]) l)).
  unfold Current, Emit, bind, get. rewrite Hv.
  split; [reflexivity |]. split; [reflexivity |]. split; [reflexivity |].
  cbn [input start pos set_start set_items].
  rewrite (slice_empty (input l) (pos l)) by lia. reflexivity.
Qed.

Lemma Emit_spec_witness :
  let l := mkLexer "let x" 0 3 1 116 None [] in
  offsets_ok l /\
  exists v l',
    Current l = Ok (v, l, []) /\
    Emit 1 l = Ok (tt, l', [mkItem 1 (start l) v]) /\
    l' = set_start (pos l) (set_items (items l ++ [mkItem 1 (start l) v]) l) /\
    Current l' = Ok ("", l', []).
Proof.
  intros l.
  assert (Hok : offsets_ok l).
  { unfold offsets_ok. vm_compute. repeat split; discriminate. }
  split; [exact Hok |]. apply (Emit_spec 1 l Hok).
Defined.

(** ** Reading one rune *)

(** X6. From an offset that is not negative [Advance] returns a valid
    code point with a width between 0 and 4 and records that width; it
    moves [pos] by the width, except on a malformed encoding where [pos]
    stays; it records the rune as the last one read, except at the end of
    the input, where [Last] still holds the rune read before. *)
Theorem Advance_returns_valid_rune (l : Lexer) :
  0 <= pos l ->
  exists r w l',
    Advance l = Ok (r, w, l', []) /\
    ValidRune r = true /\ 0 <= w <= UTFMax /\
    pos l' = (if malformed_here l then pos l else pos l + w) /\
    Last l' = Ok (if Str.len (input l) <=? pos l then last l else r, w,
                  l', []).
Proof.
  intros Hp. unfold UTFMax.
  destruct (AdvanceP l) as [Hend | Hneg | Hr Hm | r w Hr Hm Hd Hw Hle];
    [exists EOF, 0 | lia | exists RuneError, 1 | exists r, w];
    eexists; (split; [reflexivity |]).
  - assert (Hm : malformed_here l = false).
    { destruct (malformed_here l) eqn:E; [| reflexivity].
      apply malformed_here_range in E. lia. }
    rewrite Hm. replace (Str.len (input l) <=? pos l) with true
      by (symmetry; apply Z.leb_le; lia).
    cbn. repeat split; lia.
  - rewrite Hm. replace (Str.len (input l) <=? pos l) with false
      by (symmetry; apply Z.leb_gt; lia).
    cbn. repeat split; lia.
  - rewrite Hm. replace (Str.len (input l) <=? pos l) with false
      by (symmetry; apply Z.leb_gt; lia).
    unfold UTFMax in Hw. cbn.
    split; [exact (DecodeRuneInString_valid _ _ _ Hd) |].
    repeat split; lia.
Qed.

Lemma Advance_returns_valid_rune_witness :
  let l := mkLexer "ab" 0 2 1 98 None [] in
  0 <= pos l /\
  exists r w l',
    Advance l = Ok (r, w, l', []) /\
    ValidRune r = true /\ 0 <= w <= UTFMax /\
    pos l' = (if malformed_here l then pos l else pos l + w) /\
    Last l' = Ok (if Str.len (input l) <=? pos l then last l else r, w,
                  l', []).
Proof.
  intros l. split; [vm_compute; discriminate |].
  apply (Advance_returns_valid_rune l). vm_compute. discriminate.
Defined.

(** X7. Away from a malformed encoding and from a negative offset, [Peek]
    is idempotent: any number of calls in a row return the same rune and
    width, and [pos] and [start] are where they were. *)
Theorem Peek_idempotent (l : Lexer) :
  0 <= pos l -> malformed_here l = false ->
  exists r w l',
    pos l' = pos l /\ start l' = start l /\
    forall n, times (S n) Peek l = Ok (repeat (r, w) (S n), l', []).
Proof.
  intros Hp Hm.
  destruct (Peek_well_formed l Hp Hm) as (r & w & l' & H1 & Hpos & _ & H2).
  exists r, w, l'. split; [assumption |].
  split; [exact (keeps_start_bind _ _ keeps_start_Advance
                   (fun _ => keeps_start_bind _ _ keeps_start_Backup
                      (fun _ => keeps_start_ret _)) l _ _ _ H1) |].
  assert (Hn : forall n, times n Peek l' = Ok (repeat (r, w) n, l', [])).
  { induction n as [| n IH]; [reflexivity |].
    cbn [times repeat]. unfold bind at 1. rewrite H2.
    unfold bind. rewrite IH. reflexivity. }
  intros n. cbn [times repeat]. unfold bind at 1. rewrite H1.
  unfold bind. rewrite Hn. reflexivity.
Qed.

Lemma Peek_idempotent_witness :
  let l := mkLexer "ab" 0 1 1 97 None [] in
  0 <= pos l /\ malformed_here l = false /\
  exists r w l',
    pos l' = pos l /\ start l' = start l /\
    forall n, times (S n) Peek l = Ok (repeat (r, w) (S n), l', []).
Proof.
  intros l. split; [vm_compute; discriminate |]. split; [reflexivity |].
  apply (Peek_idempotent l); [vm_compute; discriminate | reflexivity].
Defined.

(** ** Accepting runes *)

Module accept_facts.

Section Accepting.

(** The test of [Accept] or of [AcceptRange], and the method it makes. *)
Variable test : rune -> bool.

Let accept : M bool :=
  rw <- Advance ;;
  let ok := test (fst rw) in
  if negb ok then Backup ;; ret ok else ret ok.

(** All or nothing: from a place that is not a malformed encoding, the
    rune is taken when it passes the test and [pos] stays otherwise. *)
Lemma accept_takes_or_leaves l :
  0 <= pos l -> malformed_here l = false ->
  exists r w la,
    Advance l = Ok (r, w, la, []) /\ pos la = pos l + w /\
    accept l = Ok (test r, if test r then la else set_pos (pos l) la, []).
Proof.
  intros Hp Hm. subst accept. unfold bind.
  destruct (AdvanceP l) as [Hend | Hneg | Hr Hm' | r w Hr _ Hd Hw Hle];
    try lia; try congruence.
  - exists EOF, 0, (set_width 0 l). split; [reflexivity |].
    split; [cbn; lia |]. cbn [fst]. destruct (test EOF); cbn [negb].
    + reflexivity.
    + rewrite Backup_eq. unfold ret. do 3 f_equal. cbn. f_equal. lia.
  - exists r, w, (set_pos (pos l + w) (set_width w (set_last r l))).
    split; [reflexivity |]. split; [reflexivity |].
    cbn [fst]. destruct (test r); cbn [negb].
    + reflexivity.
    + rewrite Backup_eq. unfold ret. do 3 f_equal. cbn. f_equal. lia.
Qed.

(** One step of a run that cannot stand still: the test refuses [EOF] and
    [RuneError], so that a rune taken moves [pos] forward. *)
Lemma accept_progress l :
  test EOF = false -> test RuneError = false -> 0 <= pos l ->
  exists ok l',
    accept l = Ok (ok, l', []) /\ input l' = input l /\
    (ok = true -> pos l < pos l' <= Str.len (input l)).
Proof.
  intros He Hr Hp. subst accept. unfold bind.
  destruct (AdvanceP l) as [Hend | Hneg | Hr' Hm' | r w Hr' _ Hd Hw Hle];
    try lia; cbn [fst]; rewrite ?He, ?Hr; cbn [negb].
  - rewrite Backup_eq. do 2 eexists. split; [reflexivity |].
    split; [reflexivity | discriminate].
  - rewrite Backup_eq. do 2 eexists. split; [reflexivity |].
    split; [reflexivity | discriminate].
  - destruct (test r); cbn [negb].
    + do 2 eexists. split; [reflexivity |]. split; [reflexivity |].
      intros _. cbn. lia.
    + rewrite Backup_eq. do 2 eexists. split; [reflexivity |].
      split; [reflexivity | discriminate].
Qed.

(** One step of a run that stands still. *)
Lemma accept_stands_still l :
  (Str.len (input l) <= pos l /\ test EOF = true) \/
  (malformed_here l = true /\ test RuneError = true) ->
  exists l',
    accept l = Ok (true, l', []) /\ pos l' = pos l /\ input l' = input l.
Proof.
  subst accept. unfold bind. intros [[Hend Ht] | [Hm Ht]].
  - rewrite (Advance_end l Hend). cbn [fst]. rewrite Ht. cbn [negb].
    eexists. split; [reflexivity |]. now split.
  - rewrite (Advance_malformed l Hm). cbn [fst]. rewrite Ht. cbn [negb].
    eexists. split; [reflexivity |]. now split.
Qed.

(** The loop [for accept() { n++ }], as either run has it. *)
Variable loop : nat -> Z -> M Z.

Hypothesis loop_O : forall n, loop O n = out_of_fuel.

Hypothesis loop_S : forall fuel n,
  loop (S fuel) n =
  (ok <- accept ;; if ok then loop fuel (n + 1) else ret n).

Lemma loop_terminates fuel l n :
  test EOF = false -> test RuneError = false -> 0 <= pos l ->
  (Z.to_nat (Str.len (input l) - pos l) < fuel)%nat ->
  exists k l',
    loop fuel n l = Ok (k, l', []) /\
    n <= k <= n + Z.max 0 (Str.len (input l) - pos l).
Proof.
  intros He Hr. revert l n.
  induction fuel as [| fuel IH]; intros l n Hp Hf; [lia |].
  rewrite loop_S. unfold bind.
  destruct (accept_progress l He Hr Hp) as (ok & l1 & -> & Hin & Hok).
  destruct ok.
  - specialize (Hok eq_refl).
    destruct (IH l1 (n + 1)) as (k & l' & -> & Hk);
      [lia | rewrite Hin; lia |].
    exists k, l'. split; [reflexivity |]. rewrite Hin in Hk. lia.
  - exists n, l1. split; [reflexivity | lia].
Qed.

Lemma loop_spins fuel l n :
  (Str.len (input l) <= pos l /\ test EOF = true) \/
  (malformed_here l = true /\ test RuneError = true) ->
  loop fuel n l = OutOfFuel.
Proof.
  revert l n. induction fuel as [| fuel IH]; intros l n H.
  - now rewrite loop_O.
  - rewrite loop_S. unfold bind.
    destruct (accept_stands_still l H) as (l1 & -> & Hpos & Hin).
    rewrite IH; [reflexivity |].
    unfold malformed_here in *. rewrite Hpos, Hin. exact H.
Qed.

End Accepting.

Lemma Accept_step valid l :
  0 <= pos l -> malformed_here l = false ->
  exists r w la,
    Advance l = Ok (r, w, la, []) /\ pos la = pos l + w /\
    Accept valid l
    = Ok (0 <=? strings.IndexRune valid r,
          if 0 <=? strings.IndexRune valid r then la
          else set_pos (pos l) la, []).
Proof.
  exact (accept_takes_or_leaves (fun r => 0 <=? strings.IndexRune valid r) l).
Qed.

End accept_facts.

(** X8. From an offset that is not negative and not on a malformed
    encoding, [Accept] and [AcceptRange] return and take all or nothing:
    when the rune that [Advance] reads is in the set they return true and
    leave the lexer as [Advance] left it, [pos] moved by the width;
    otherwise they return false and [pos] is where it was. *)
Theorem Accept_all_or_nothing (valid : string) (tab : unicode.RangeTable)
        (l : Lexer) :
  0 <= pos l -> malformed_here l = false ->
  exists r w la,
    Advance l = Ok (r, w, la, []) /\ pos la = pos l + w /\
    Accept valid l
    = Ok (0 <=? strings.IndexRune valid r,
          if 0 <=? strings.IndexRune valid r then la
          else set_pos (pos l) la, []) /\
    AcceptRange tab l
    = Ok (unicode.Is tab r,
          if unicode.Is tab r then la else set_pos (pos l) la, []).
Proof.
  intros Hp Hm.
  destruct (accept_facts.accept_takes_or_leaves
              (fun r => 0 <=? strings.IndexRune valid r) l Hp Hm)
    as (r & w & la & Ha & Hpos & Hacc).
  destruct (accept_facts.accept_takes_or_leaves (unicode.Is tab) l Hp Hm)
    as (r' & w' & la' & Ha' & _ & Hrange).
  rewrite Ha in Ha'. injection Ha' as <- <- <-.
  exists r, w, la. repeat split; assumption.
Qed.

Lemma Accept_all_or_nothing_witness :
  let l := mkLexer "a1" 0 1 1 97 None [] in
  let tab := unicode.mkRangeTable [unicode.mkRange 97 122 1] [] in
  0 <= pos l /\ malformed_here l = false /\
  exists r w la,
    Advance l = Ok (r, w, la, []) /\ pos la = pos l + w /\
    Accept "0123456789" l
    = Ok (0 <=? strings.IndexRune "0123456789" r,
          if 0 <=? strings.IndexRune "0123456789" r then la
          else set_pos (pos l) la, []) /\
    AcceptRange tab l
    = Ok (unicode.Is tab r,
          if unicode.Is tab r then la else set_pos (pos l) la, []).
Proof.
  intros l tab. split; [vm_compute; discriminate |]. split; [reflexivity |].
  apply (Accept_all_or_nothing "0123456789" tab l);
    [vm_compute; discriminate | reflexivity].
Defined.

(** X9. [AcceptRun] and [AcceptRunRange] return when the set holds neither
    [EOF] (the byte 0x04) nor [RuneError]: from an offset that is not
    negative, more than [len(input) - pos] iterations are never needed,
    and the count returned is between 0 and the number of bytes left. *)
Theorem AcceptRun_terminates (valid : string) (tab : unicode.RangeTable)
        (fuel : nat) (l : Lexer) :
  0 <= pos l ->
  (Z.to_nat (Str.len (input l) - pos l) < fuel)%nat ->
  (strings.IndexRune valid EOF < 0 ->
   strings.IndexRune valid RuneError < 0 ->
   exists n l',
     AcceptRun fuel valid l = Ok (n, l', []) /\
     0 <= n <= Z.max 0 (Str.len (input l) - pos l)) /\
  (unicode.Is tab EOF = false ->
   unicode.Is tab RuneError = false ->
   exists n l',
     AcceptRunRange fuel tab l = Ok (n, l', []) /\
     0 <= n <= Z.max 0 (Str.len (input l) - pos l)).
Proof.
  intros Hp Hf. split.
  - intros He Hr.
    apply (accept_facts.loop_terminates
             (fun r => 0 <=? strings.IndexRune valid r)
             (fun fuel n => AcceptRun_loop fuel valid n));
      try reflexivity; try assumption; apply Z.leb_gt; assumption.
  - intros He Hr.
    apply (accept_facts.loop_terminates (unicode.Is tab)
             (fun fuel n => AcceptRunRange_loop fuel tab n));
      try reflexivity; assumption.
Qed.

Lemma AcceptRun_terminates_witness :
  let l := mkLexer "12ab" 0 0 0 0 None [] in
  let tab := unicode.mkRangeTable [unicode.mkRange 48 57 1] [] in
  0 <= pos l /\
  (Z.to_nat (Str.len (input l) - pos l) < 5)%nat /\
  (exists n l',
     AcceptRun 5 "0123456789" l = Ok (n, l', []) /\
     0 <= n <= Z.max 0 (Str.len (input l) - pos l)) /\
  (exists n l',
     AcceptRunRange 5 tab l = Ok (n, l', []) /\
     0 <= n <= Z.max 0 (Str.len (input l) - pos l)).
Proof.
  intros l tab.
  assert (Hp : 0 <= pos l) by (vm_compute; discriminate).
  assert (Hf : (Z.to_nat (Str.len (input l) - pos l) < 5)%nat)
    by (vm_compute; lia).
  split; [exact Hp |]. split; [exact Hf |].
  destruct (AcceptRun_terminates "0123456789" tab 5 l Hp Hf) as [H1 H2].
  split; [apply H1 | apply H2]; reflexivity.
Defined.

(** X10. [AcceptRun] and [AcceptRunRange] never return when they can
    accept without moving: at the end of the input with [EOF] (the byte
    0x04) in the set, or on a malformed encoding with [RuneError] in the
    set.  Whatever the bound on the iterations, it is used up. *)
Theorem AcceptRun_never_returns (valid : string) (tab : unicode.RangeTable)
        (fuel : nat) (l : Lexer) :
  ((Str.len (input l) <= pos l /\ 0 <= strings.IndexRune valid EOF) \/
   (malformed_here l = true /\ 0 <= strings.IndexRune valid RuneError) ->
   AcceptRun fuel valid l = OutOfFuel) /\
  ((Str.len (input l) <= pos l /\ unicode.Is tab EOF = true) \/
   (malformed_here l = true /\ unicode.Is tab RuneError = true) ->
   AcceptRunRange fuel tab l = OutOfFuel).
Proof.
  split; intros H.
  - apply (accept_facts.loop_spins
             (fun r => 0 <=? strings.IndexRune valid r)
             (fun fuel n => AcceptRun_loop fuel valid n));
      try reflexivity.
    destruct H as [[H1 H2] | [H1 H2]]; [left | right];
      (split; [assumption | now apply Z.leb_le]).
  - apply (accept_facts.loop_spins (unicode.Is tab)
             (fun fuel n => AcceptRunRange_loop fuel tab n));
      try reflexivity. exact H.
Qed.

Lemma AcceptRun_never_returns_witness :
  let l := mkLexer "ab" 0 2 1 98 None [] in
  let valid := String "004" "" in
  (Str.len (input l) <= pos l /\ 0 <= strings.IndexRune valid EOF) /\
  AcceptRun 7 valid l = OutOfFuel.
Proof.
  intros l valid.
  assert (H : Str.len (input l) <= pos l /\
              0 <= strings.IndexRune valid EOF)
    by (vm_compute; split; discriminate).
  split; [exact H |].
  apply (proj1 (AcceptRun_never_returns valid
                  (unicode.mkRangeTable [] []) 7 l)).
  left. exact H.
Defined.

(** ** Delivering the queue *)

Module queue_facts.

Lemma Next_head fuel l i rest :
  items l = i :: rest -> Next fuel l = Ok (i, set_items rest l, []).
Proof.
  intros Hi. rewrite Next_unfold. unfold dequeue, get, bind.
  rewrite Hi. reflexivity.
Qed.

Lemma times_Next_queue fuel q l :
  items l = q ->
  times (List.length q) (Next fuel) l = Ok (q, set_items [] l, []).
Proof.
  revert l. induction q as [| i rest IH]; intros l Hi.
  - cbn [List.length times]. unfold ret. do 3 f_equal.
    apply Lexer_ext; cbn; congruence.
  - cbn [List.length times]. unfold bind at 1.
    rewrite (Next_head fuel l i rest Hi).
    unfold bind. rewrite (IH (set_items rest l) eq_refl). reflexivity.
Qed.

End queue_facts.

(** X11. Items already in the queue are delivered before anything else
    happens: as many calls of [Next] as the queue holds items return them
    in the order of the queue and empty it, without running a state
    function (a bound of 0 on their calls is enough, and the state may be
    nil) and without touching the cursor. *)
Theorem Next_drains_queue (l : Lexer) :
  times (List.length (items l)) (Next 0) l = Ok (items l, set_items [] l, []).
Proof. exact (queue_facts.times_Next_queue 0 (items l) l eq_refl). Qed.

(** X12. A state function that returns the result of [Errorf] ends the
    scan: with an empty queue, the first [Next] returns the error item,
    positioned at [start] and carrying the message, the state becomes nil
    and the cursor is untouched; every later [Next] returns the
    end-of-input item. *)
Theorem Errorf_ends_the_scan (msg : string) (fuel n : nat) (l : Lexer) :
  items l = [] ->
  state l = Some (SF (Call (OErrorf msg) (fun _ => Return None))) ->
  times (S n) (Next (S fuel)) l
  = Ok (mkItem ItemError (start l) msg :: repeat (eof_item l) n,
        set_state None l,
        [mkItem ItemError (start l) msg]).
Proof.
  intros Hi Hs.
  set (e := mkItem ItemError (start l) msg).
  assert (H1 : Next (S fuel) l = Ok (e, set_state None l, [e])).
  { rewrite Next_unfold. unfold dequeue, get, bind.
    rewrite Hi. cbn beta iota. unfold ret at 1. cbn beta iota.
    rewrite Hs. cbn [call_state exec exec_op].
    unfold Errorf, enqueue, tell, modify, get, ret, bind.
    cbn beta iota. rewrite Hi. cbn [app].
    rewrite (queue_facts.Next_head fuel _ e []) by reflexivity.
    do 3 f_equal. apply Lexer_ext; cbn; congruence. }
  cbn [times]. unfold bind at 1. rewrite H1. unfold bind.
  rewrite (times_Next_terminal (S fuel) n (set_state None l))
    by (assumption || reflexivity).
  reflexivity.
Qed.

Lemma Errorf_ends_the_scan_witness :
  let f := SF (Call (OErrorf "bad rune") (fun _ => Return None)) in
  let l := mkLexer "?" 0 0 0 0 (Some f) [] in
  items l = [] /\ state l = Some f /\
  times 3 (Next 1) l
  = Ok (mkItem ItemError (start l) "bad rune" :: repeat (eof_item l) 2,
        set_state None l,
        [mkItem ItemError (start l) "bad rune"]).
Proof.
  intros f l. split; [reflexivity |]. split; [reflexivity |].
  apply (Errorf_ends_the_scan "bad rune" 0 2 l); reflexivity.
Defined.

(** ** Runs over ASCII input *)

Module run_facts.

Import runs.

Lemma is_ascii_drop n s : is_ascii s = true -> is_ascii (Str.drop n s) = true.
Proof.
  revert s. induction n as [| n IH]; intros s Hs; [assumption |].
  destruct s as [| a s]; [reflexivity |]. cbn [Str.drop].
  cbn [is_ascii] in Hs. apply andb_true_iff in Hs as [_ Hs]. now apply IH.
Qed.

Lemma drop_succ n s a t :
  Str.drop n s = String a t -> Str.drop (S n) s = t.
Proof.
  revert s. induction n as [| n IH]; intros s H.
  - cbn in H. subst s. reflexivity.
  - destruct s as [| b s]; [discriminate |]. cbn [Str.drop] in *.
    now apply IH.
Qed.

Lemma drop_all s : Str.drop (String.length s) s = "".
Proof. induction s as [| a s IH]; [reflexivity | exact IH]. Qed.

Lemma ascii_head n s a t :
  is_ascii s = true -> Str.drop n s = String a t ->
  DecodeRuneInString (Str.drop n s) = (Str.byte_of a, 1) /\
  0 <= Str.byte_of a < RuneSelf.
Proof.
  intros Hs Hd. pose proof (is_ascii_drop n s Hs) as Ha. rewrite Hd in *.
  cbn [is_ascii] in Ha. apply andb_true_iff in Ha as [Ha _].
  unfold DecodeRuneInString. change tx with RuneSelf. rewrite Ha.
  apply Z.ltb_lt in Ha. pose proof (utf8_facts.byte_of_range a).
  split; [reflexivity | lia].
Qed.

Lemma ascii_not_malformed l :
  is_ascii (input l) = true -> malformed_here l = false.
Proof.
  intros Ha. destruct (malformed_here l) eqn:Hm; [| reflexivity].
  pose proof (malformed_here_range l Hm) as Hr.
  apply (malformed_here_decode l Hr) in Hm.
  destruct (Str.drop (Z.to_nat (pos l)) (input l)) as [| a t] eqn:Hd;
    [discriminate |].
  destruct (ascii_head _ _ a t Ha Hd) as [He Hb]. rewrite Hd in He.
  rewrite He in Hm. injection Hm as Hm. unfold RuneError, RuneSelf in *.
  lia.
Qed.

(** On ASCII input the loop of [AcceptRun] takes the leading bytes that
    occur in [valid], and stops. *)
Lemma AcceptRun_loop_ascii valid fuel l n :
  is_ascii (input l) = true ->
  Str.IndexByte valid EOF < 0 ->
  0 <= pos l <= Str.len (input l) ->
  (span_len valid (Str.drop (Z.to_nat (pos l)) (input l)) < fuel)%nat ->
  exists l',
    AcceptRun_loop fuel valid n l
    = Ok (n + Z.of_nat
                (span_len valid (Str.drop (Z.to_nat (pos l)) (input l))),
          l', []) /\
    pos l' = pos l + Z.of_nat
               (span_len valid (Str.drop (Z.to_nat (pos l)) (input l))) /\
    start l' = start l /\ input l' = input l.
Proof.
  intros Hascii Heof. revert l n Hascii.
  induction fuel as [| fuel IH]; intros l n Hascii Hp Hf; [lia |].
  pose proof (ascii_not_malformed l Hascii) as Hm.
  destruct (accept_facts.Accept_step valid l (proj1 Hp) Hm)
    as (r & w & la & Hadv & Hpos & Hacc).
  pose proof (keeps_start_Advance l _ _ _ Hadv) as Hst.
  destruct (silent_Advance l _ _ _ Hadv) as (_ & _ & _ & Hin).
  cbn beta in Hst, Hin.
  cbn [AcceptRun_loop]. unfold bind at 1. rewrite Hacc. clear Hacc.
  destruct (Str.drop (Z.to_nat (pos l)) (input l)) as [| a t] eqn:Hdrop.
  - (* the end of the input *)
    assert (Hend : Str.len (input l) <= pos l).
    { pose proof (Str_facts.len_drop (Z.to_nat (pos l)) (input l)) as Hl.
      rewrite Hdrop in Hl. unfold Str.len in *. cbn in Hl. lia. }
    rewrite (Advance_end l Hend) in Hadv. injection Hadv as <- <- <-.
    replace (0 <=? strings.IndexRune valid EOF) with false
      by (symmetry; apply Z.leb_gt; exact Heof).
    cbn [span_len]. unfold ret. cbn [app].
    eexists. split; [do 3 f_equal; lia |]. cbn. repeat split; lia.
  - destruct (ascii_head _ _ a t Hascii Hdrop) as [Hdec Hb].
    assert (Hrw : r = Str.byte_of a /\ w = 1).
    { destruct (AdvanceP l) as [Hend | Hneg | Hr Hm' | r' w' Hr _ Hd Hw Hle];
        try discriminate; try congruence.
      - pose proof (Str_facts.len_drop (Z.to_nat (pos l)) (input l)) as Hl.
        rewrite Hdrop, Str_facts.len_String in Hl.
        pose proof (Str_facts.len_nonneg t). unfold Str.len in *. lia.
      - injection Hadv as <- <- <-.
        rewrite Hdec in Hd. now injection Hd as <- <-. }
    destruct Hrw as [-> ->].
    assert (Hidx : strings.IndexRune valid (Str.byte_of a)
                   = Str.IndexByte valid (Str.byte_of a)).
    { unfold strings.IndexRune.
      replace (0 <=? Str.byte_of a) with true
        by (symmetry; apply Z.leb_le; lia).
      replace (Str.byte_of a <? RuneSelf) with true
        by (symmetry; apply Z.ltb_lt; lia).
      reflexivity. }
    rewrite Hidx. cbn [span_len] in Hf |- *. revert Hf.
    destruct (0 <=? Str.IndexByte valid (Str.byte_of a)); intros Hf.
    + assert (Hd1 : Str.drop (Z.to_nat (pos la)) (input la) = t).
      { rewrite Hin, Hpos.
        replace (Z.to_nat (pos l + 1)) with (S (Z.to_nat (pos l))) by lia.
        exact (drop_succ _ _ _ _ Hdrop). }
      assert (Hlen : pos l + 1 <= Str.len (input l)).
      { pose proof (Str_facts.len_drop (Z.to_nat (pos l)) (input l)) as Hl.
        rewrite Hdrop, Str_facts.len_String in Hl.
        pose proof (Str_facts.len_nonneg t). unfold Str.len in *. lia. }
      destruct (IH la (n + 1)) as (l' & Hrun & Hpos' & Hst' & Hin').
      * now rewrite Hin.
      * rewrite Hin, Hpos. lia.
      * rewrite Hd1. lia.
      * rewrite Hd1 in Hrun, Hpos'. exists l'. rewrite Hrun. cbn [app].
        split; [do 3 f_equal; lia |].
        repeat split; try lia; congruence.
    + unfold ret. cbn [app].
      eexists. split; [do 3 f_equal; lia |]. cbn.
      repeat split; try lia; assumption.
Qed.

End run_facts.

(** X13. On an input of ASCII bytes, with a set that does not hold the
    byte 0x04, [AcceptRun] takes exactly the leading bytes of the rest of
    the input that occur in the set: it returns their number and has moved
    [pos] by as much, leaving [start]; one iteration more than that number
    is enough. *)
Theorem AcceptRun_ascii (valid : string) (fuel : nat) (l : Lexer) :
  runs.is_ascii (input l) = true ->
  Str.IndexByte valid EOF < 0 ->
  0 <= pos l <= Str.len (input l) ->
  (runs.span_len valid (Str.drop (Z.to_nat (pos l)) (input l)) < fuel)%nat ->
  exists l',
    AcceptRun fuel valid l
    = Ok (Z.of_nat
            (runs.span_len valid (Str.drop (Z.to_nat (pos l)) (input l))),
          l', []) /\
    pos l' = pos l + Z.of_nat
               (runs.span_len valid
                  (Str.drop (Z.to_nat (pos l)) (input l))) /\
    start l' = start l /\ input l' = input l.
Proof.
  intros Ha He Hp Hf.
  exact (run_facts.AcceptRun_loop_ascii valid fuel l 0 Ha He Hp Hf).
Qed.

Lemma AcceptRun_ascii_witness :
  let l := mkLexer "x = 123abc" 0 4 1 32 None [] in
  runs.is_ascii (input l) = true /\
  Str.IndexByte "0123456789" EOF < 0 /\
  0 <= pos l <= Str.len (input l) /\
  (runs.span_len "0123456789"
     (Str.drop (Z.to_nat (pos l)) (input l)) < 4)%nat /\
  exists l',
    AcceptRun 4 "0123456789" l
    = Ok (Z.of_nat
            (runs.span_len "0123456789"
               (Str.drop (Z.to_nat (pos l)) (input l))),
          l', []) /\
    pos l' = pos l + Z.of_nat
               (runs.span_len "0123456789"
                  (Str.drop (Z.to_nat (pos l)) (input l))) /\
    start l' = start l /\ input l' = input l.
Proof.
  intros l.
  assert (Ha : runs.is_ascii (input l) = true) by reflexivity.
  assert (He : Str.IndexByte "0123456789" EOF < 0) by reflexivity.
  assert (Hp : 0 <= pos l <= Str.len (input l))
    by (vm_compute; split; discriminate).
  assert (Hf : (runs.span_len "0123456789"
                  (Str.drop (Z.to_nat (pos l)) (input l)) < 4)%nat)
    by (vm_compute; lia).
  split; [exact Ha |]. split; [exact He |]. split; [exact Hp |].
  split; [exact Hf |].
  apply (AcceptRun_ascii "0123456789" 4 l Ha He Hp Hf).
Defined.

(** ** The items of [Emit] as slices of the input *)

Module tiling_facts.

Import tiling.

Lemma tiled_end inp p log q q' :
  tiled inp p log q -> q <= q' -> tiled inp p log q'.
Proof.
  revert p. induction log as [| i rest IH]; intros p H Hq; cbn in *.
  - lia.
  - destruct H as (Hp & Hs & Ht). repeat split; try assumption.
    now apply IH.
Qed.

Lemma tiled_app inp p log1 q log2 r :
  tiled inp p log1 q -> tiled inp q log2 r -> tiled inp p (log1 ++ log2) r.
Proof.
  revert p. induction log1 as [| i rest IH]; intros p H1 H2; cbn in *.
  - destruct log2 as [| j rest2]; cbn in *; [lia |].
    destruct H2 as (Hq & Hs & Ht). repeat split; try assumption. lia.
  - destruct H1 as (Hp & Hs & Ht). repeat split; try assumption.
    now apply IH.
Qed.

Lemma scanned_reachable fuel l0 l log :
  scanned fuel l0 l log -> reachable fuel l0 l.
Proof.
  induction 1 as [| l l' c log log1 _ IH Hok _ Hx]; [apply reach_init |].
  exact (reach_call fuel l0 l l' c log1 IH Hok Hx).
Qed.

Lemma scanned_tiled fuel l0 l log :
  cursor_inv l0 -> scanned fuel l0 l log ->
  tiled (input l0) (start l0) log (start l).
Proof.
  intros H0 Hs.
  induction Hs as [| l l' c log log1 Hs IH Hok Hne Hx]; [cbn; lia |].
  destruct (reachable_cursor_inv fuel l0 l H0 (scanned_reachable _ _ _ _ Hs))
    as [[(Ha & Hb & Hc) _] Hin].
  destruct c as [A o]. unfold exec_call in Hx.
  apply bind_Ok in Hx as (a & l3 & log3 & log4 & Hx & [= <- <-] & ->).
  rewrite app_nil_r.
  destruct (exec_op_frame fuel A o l l3 a log3 Hx) as (_ & _ & _ & Hf).
  destruct o; cbn [op_frame is_Errorf] in Hf, Hne; try discriminate;
    try (destruct Hf as [-> ->]; rewrite app_nil_r;
         apply (tiled_end _ _ _ _ _ IH); lia).
  destruct Hf as (v & Hv & -> & ->).
  apply (tiled_app _ _ _ _ _ _ IH).
  destruct (slice_ok (input l) (start l) (pos l) Ha Hb Hc)
    as (v' & Hv' & Hlen & _).
  rewrite Hv in Hv'. injection Hv' as <-.
  cbn [tiled Pos_ Value]. rewrite Hlen.
  replace (start l + (pos l - start l)) with (pos l) by lia.
  rewrite <- Hin. repeat split; try lia. exact Hv.
Qed.

End tiling_facts.

(** X14. The items that [Emit] enqueues are slices of the input that
    follow one another without overlap: along calls from a new lexer that
    meet the contract of the position invariant, [Errorf] left aside,
    each item's value is the input from the item's position on, each item
    begins at or after the end of the one before, and the last one ends
    at or before [start]. *)
Theorem emitted_items_tile_the_input (fuel : nat) (f : StateFn)
        (inp : string) (l0 l : Lexer) (log : list Item) :
  New (Some f) inp = Ok l0 ->
  tiling.scanned fuel l0 l log ->
  tiling.tiled inp 0 log (start l).
Proof.
  intros [= <-] Hs.
  assert (H0 : cursor_inv (mkLexer inp 0 0 0 0 (Some f) [])).
  { pose proof (Str_facts.len_nonneg inp).
    unfold cursor_inv, offsets_ok. cbn. lia. }
  exact (tiling_facts.scanned_tiled fuel _ l log H0 Hs).
Qed.

Lemma emitted_items_tile_the_input_witness :
  let f := SF (Return None) in
  let l0 := mkLexer "a b" 0 0 0 0 (Some f) [] in
  let i1 := mkItem 1 0 "a" in
  let i2 := mkItem 1 2 "b" in
  let l := mkLexer "a b" 3 3 1 98 (Some f) [i1; i2] in
  New (Some f) "a b" = Ok l0 /\
  tiling.scanned 0 l0 l [i1; i2] /\
  tiling.tiled "a b" 0 [i1; i2] (start l).
Proof.
  intros f l0 i1 i2 l.
  pose (la := mkLexer "a b" 0 1 1 97 (Some f) []).
  pose (lb := mkLexer "a b" 1 1 1 97 (Some f) [i1]).
  pose (lc := mkLexer "a b" 1 2 1 32 (Some f) [i1]).
  pose (ld := mkLexer "a b" 2 2 1 32 (Some f) [i1]).
  pose (le := mkLexer "a b" 2 3 1 98 (Some f) [i1]).
  assert (Hs : tiling.scanned 0 l0 l [i1; i2]).
  { apply (tiling.scanned_call 0 l0 le l (Invoke (OEmit 1)) [i1] [i2]);
      [| reflexivity | reflexivity | reflexivity].
    apply (tiling.scanned_call 0 l0 ld le (Invoke OAdvance) [i1] []);
      [| reflexivity | reflexivity | reflexivity].
    apply (tiling.scanned_call 0 l0 lc ld (Invoke OIgnore) [i1] []);
      [| reflexivity | reflexivity | reflexivity].
    apply (tiling.scanned_call 0 l0 lb lc (Invoke OAdvance) [i1] []);
      [| reflexivity | reflexivity | reflexivity].
    apply (tiling.scanned_call 0 l0 la lb (Invoke (OEmit 1)) [] [i1]);
      [| reflexivity | reflexivity | reflexivity].
    apply (tiling.scanned_call 0 l0 l0 la (Invoke OAdvance) [] []);
      [| reflexivity | reflexivity | reflexivity].
    apply tiling.scanned_init. }
  split; [reflexivity |]. split; [exact Hs |].
  apply (emitted_items_tile_the_input 0 f "a b" l0 l [i1; i2] eq_refl Hs).
Defined.
